(** * Yundera SMTP handler: the email normalisation pipeline

    A shallow embedding of the SMTP relay (package [main]): the label
    sanitiser [sanitizeAppName], the MIME walker [extractBodyParts], the
    top-level [parseEmail] and the session callbacks [Mail], [Rcpt], [Data],
    [Reset].

    Go strings are byte sequences; they are modelled by [string], whose
    characters are the 256 byte values.  The pieces of the Go standard
    library and of go-message that the program calls are modelled in the
    modules [strings], [regexp], [base64], [io] and [message] below; what those
    libraries compute from data this development does not interpret (the
    Unicode case tables, the MIME parser, the HTTP exchange) is a parameter
    of the definitions that need it. *)

From Stdlib Require Import ZArith NArith Ascii String List Lia Bool.
From stdpp Require Import base gmap strings list fin_maps.

Local Open Scope N_scope.
Local Open Scope nat_scope.
Local Open Scope stdpp_scope.
Local Set Warnings "-register-all".

(** ** Bytes *)

Definition byte_val (c : ascii) : N := N_of_ascii c.

Definition in_range (lo hi c : ascii) : bool :=
  ((byte_val lo <=? byte_val c) && (byte_val c <=? byte_val hi))%N.

(** Bytes below [utf8.RuneSelf] (0x80) are the one-byte characters. *)
Definition is_ascii (c : ascii) : bool := (byte_val c <? 128)%N.

(** ** Strings as byte sequences *)

Fixpoint len (s : string) : nat :=
  match s with
  | EmptyString => 0
  | String _ s' => S (len s')
  end.

(** [s[:n]] and [s[n:]]; the program only slices within bounds. *)
Fixpoint slice_to (n : nat) (s : string) : string :=
  match n, s with
  | S n', String c s' => String c (slice_to n' s')
  | _, _ => ""
  end.

Fixpoint slice_from (n : nat) (s : string) : string :=
  match n, s with
  | S n', String _ s' => slice_from n' s'
  | _, _ => s
  end.

Fixpoint str_filter (p : ascii -> bool) (s : string) : string :=
  match s with
  | EmptyString => ""
  | String c s' => if p c then String c (str_filter p s') else str_filter p s'
  end.

Fixpoint str_map (f : ascii -> ascii) (s : string) : string :=
  match s with
  | EmptyString => ""
  | String c s' => String (f c) (str_map f s')
  end.

Fixpoint str_forall (p : ascii -> bool) (s : string) : bool :=
  match s with
  | EmptyString => true
  | String c s' => p c && str_forall p s'
  end.

Definition is_empty (s : string) : bool :=
  match s with EmptyString => true | String _ _ => false end.

(** ** Package [strings] *)

Module strings.

(** [strings.HasPrefix(s, prefix)]. *)
Fixpoint HasPrefix (s prefix : string) : bool :=
  match prefix with
  | EmptyString => true
  | String p prefix' =>
      match s with
      | EmptyString => false
      | String c s' => Ascii.eqb c p && HasPrefix s' prefix'
      end
  end.

(** [strings.Contains(s, substr)]. *)
Fixpoint Contains (s substr : string) : bool :=
  HasPrefix s substr ||
  match s with
  | EmptyString => false
  | String _ s' => Contains s' substr
  end.

(** [strings.HasSuffix(s, suffix)]. *)
Definition HasSuffix (s suffix : string) : bool :=
(len suffix <=? len s) && String.eqb (slice_from (len s - len suffix) s) suffix.

(** [strings.ReplaceAll(s, old, new)]: the matches of [old] are found
    from the left and do not overlap.  [skip] counts the bytes of the
    current match still to be dropped.  With an empty [old] Go inserts
    [new] around every UTF-8 sequence; the model inserts it around every
    byte.  The program never gets there: its [old] starts with "cid:". *)
Fixpoint replace_from (old new : string) (skip : nat) (s : string) : string :=
  match s with
  | EmptyString => ""
  | String c s' =>
      match skip with
      | S k => replace_from old new k s'
      | O =>
          if HasPrefix s old
          then new +:+ replace_from old new (len old - 1) s'
          else String c (replace_from old new 0 s')
      end
  end.

Fixpoint intersperse (new s : string) : string :=
  match s with
  | EmptyString => new
  | String c s' => new +:+ String c (intersperse new s')
  end.

Definition ReplaceAll (s old new : string) : string :=
  if is_empty old then intersperse new s else replace_from old new 0 s.

(** [strings.Trim(s, cutset)] for a cutset of one-byte characters. *)
Fixpoint in_cutset (cutset : string) (c : ascii) : bool :=
  match cutset with
  | EmptyString => false
  | String d cutset' => Ascii.eqb c d || in_cutset cutset' c
  end.

Fixpoint TrimLeft (s cutset : string) : string :=
  match s with
  | EmptyString => ""
  | String c s' => if in_cutset cutset c then TrimLeft s' cutset else s
  end.

Fixpoint TrimRight (s cutset : string) : string :=
  match s with
  | EmptyString => ""
  | String c s' =>
      let r := TrimRight s' cutset in
      if is_empty r && in_cutset cutset c then "" else String c r
  end.

Definition Trim (s cutset : string) : string :=
  TrimRight (TrimLeft s cutset) cutset.

(** [unicode.IsSpace], on the UTF-8 encoding of a rune: the Latin-1
    spaces (tab, LF, VT, FF, CR, space, U+0085, U+00A0) and the rest of
    White_Space (U+1680, U+2000..U+200A, U+2028, U+2029, U+202F, U+205F,
    U+3000). *)
Definition is_space1 (a : ascii) : bool :=
  let x := byte_val a in ((9 <=? x) && (x <=? 13) || (x =? 32))%N.

Definition is_space2 (a b : ascii) : bool :=
  let x := byte_val a in
  let y := byte_val b in
  ((x =? 194) && ((y =? 133) || (y =? 160)))%N.

Definition is_space3 (a b c : ascii) : bool :=
  let x := byte_val a in
  let y := byte_val b in
  let z := byte_val c in
  ((x =? 225) && (y =? 154) && (z =? 128)
   || (x =? 226) && (y =? 128)
      && ((128 <=? z) && (z <=? 138) || (z =? 168) || (z =? 169) || (z =? 175))
   || (x =? 226) && (y =? 129) && (z =? 159)
   || (x =? 227) && (y =? 128) && (z =? 128))%N.

(** The string is exactly one white-space rune. *)
Definition is_space_rune (s : string) : bool :=
  match s with
  | String a EmptyString => is_space1 a
  | String a (String b EmptyString) => is_space2 a b
  | String a (String b (String c EmptyString)) => is_space3 a b c
  | _ => false
  end.

(** [strings.TrimLeftFunc(s, unicode.IsSpace)]: an invalid byte decodes
    to U+FFFD, which is no space, and stops the scan. *)
Fixpoint TrimLeftSpace (s : string) : string :=
  match s with
  | EmptyString => ""
  | String a s1 =>
      if is_space1 a then TrimLeftSpace s1
      else
        match s1 with
        | EmptyString => s
        | String b s2 =>
            if is_space2 a b then TrimLeftSpace s2
            else
              match s2 with
              | EmptyString => s
              | String c s3 => if is_space3 a b c then TrimLeftSpace s3 else s
              end
        end
  end.

(** [strings.TrimRightFunc(s, unicode.IsSpace)]: the last rune is a
    space exactly when the string ends with the encoding of one. *)
Fixpoint TrimRightSpace (s : string) : string :=
  match s with
  | EmptyString => ""
  | String a s' =>
      let r := String a (TrimRightSpace s') in
      if is_space_rune r then "" else r
  end.

(** [strings.TrimSpace]: its ASCII fast path and its fallback compute the
    same thing, the string without leading and trailing white space. *)
Definition TrimSpace (s : string) : string :=
  TrimRightSpace (TrimLeftSpace s).

(** [strings.Split(s, sep)] for a non-empty [sep]; [cur] holds the bytes
    of the current piece, last first. *)
Fixpoint split_from (sep : string) (skip : nat) (cur s : string) : list string :=
  match s with
  | EmptyString => [String.rev cur]
  | String c s' =>
      match skip with
      | S k => split_from sep k cur s'
      | O =>
          if HasPrefix s sep
          then String.rev cur :: split_from sep (len sep - 1) "" s'
          else split_from sep 0 (String c cur) s'
      end
  end.

Definition Split (s sep : string) : list string := split_from sep 0 "" s.

(** The ASCII fast path of [strings.ToLower]. *)
Definition lower_byte (c : ascii) : ascii :=
  if in_range "A" "Z" c then ascii_of_N (byte_val c + 32) else c.

(** [strings.ToLower]: a string of one-byte characters is lowered byte
    by byte; any other string goes through
    [strings.Map(unicode.ToLower, s)], which depends on the Unicode
    tables and is the parameter [unicode_lower]. *)
Definition ToLower (unicode_lower : string -> string) (s : string) : string :=
  if str_forall is_ascii s then str_map lower_byte s else unicode_lower s.

End strings.

(** ** Package [regexp], as far as the program uses it

    The only expression compiled is a single bracket expression. *)

Module regexp.

Inductive ClassItem :=
| Range (lo hi : ascii)
| Lit (c : ascii).

Record Regexp := mkRegexp { negated : bool; items : list ClassItem }.

Definition item_matches (c : ascii) (i : ClassItem) : bool :=
  match i with
  | Range lo hi => in_range lo hi c
  | Lit d => Ascii.eqb c d
  end.

Definition MatchByte (re : Regexp) (c : ascii) : bool :=
  xorb (negated re) (existsb (item_matches c) (items re)).

(** [re.ReplaceAllString(src, repl)] for a one-character expression.
    Go matches runes, this model bytes.  The two agree at the program's
    only call: the class is a negated set of one-byte characters, so every
    byte of a longer sequence (all of them are 0x80 or above) matches, and
    the replacement is empty. *)
Fixpoint ReplaceAllString (re : Regexp) (src repl : string) : string :=
  match src with
  | EmptyString => ""
  | String c src' =>
      if MatchByte re c then repl +:+ ReplaceAllString re src' repl
      else String c (ReplaceAllString re src' repl)
  end.

End regexp.

(** ** [sanitizeAppName] *)

(** [strings.Map(unicode.ToLower, _)], which [strings.ToLower] applies to a
    string that is not pure ASCII. *)
Class Unicode := unicode_lower : string -> string.

(** [regexp.MustCompile("[^a-z0-9-]")] *)
Definition reg : regexp.Regexp :=
  regexp.mkRegexp true
    [regexp.Range "a" "z"; regexp.Range "0" "9"; regexp.Lit "-"].

Definition sanitizeAppName `{Unicode} (name : string) : string :=
  let name := strings.ToLower unicode_lower name in
  let name := regexp.ReplaceAllString reg name "" in
  let name := if 20 <? len name then slice_to 20 name else name in
  let name := if is_empty name then "app" else name in
  name.

(** The specification's wording: the characters of [a-z0-9-]. *)
Definition allowed (c : ascii) : bool :=
  in_range "a" "z" c || in_range "0" "9" c || Ascii.eqb c "-".

(** The specification's wording of the label: lowercase, strip, truncate
    to 20, default to "app". *)
Definition label_of_spec `{Unicode} (name : string) : string :=
  let kept :=
    slice_to 20 (str_filter allowed (strings.ToLower unicode_lower name)) in
  if is_empty kept then "app" else kept.

(** ** Package [encoding/base64] *)

Module base64.

Definition encodeStd : string :=
  "ABCDEFGHIJKLMNOPQRSTUVWXYZabcdefghijklmnopqrstuvwxyz0123456789+/".

(** The character of a 6-bit value in the standard alphabet. *)
Definition digit (v : N) : ascii :=
  match String.get (N.to_nat (N.land v 63)) encodeStd with
  | Some c => c
  | None => "="%char
  end.

(** [base64.StdEncoding.EncodeToString]: three bytes give four
    characters, a last group of one or two bytes is padded with "=". *)
Fixpoint EncodeToString (src : string) : string :=
  match src with
  | EmptyString => ""
  | String a EmptyString =>
      let v := N.shiftl (byte_val a) 16 in
      String (digit (N.shiftr v 18)) (String (digit (N.shiftr v 12)) "==")
  | String a (String b EmptyString) =>
      let v := N.lor (N.shiftl (byte_val a) 16) (N.shiftl (byte_val b) 8) in
      String (digit (N.shiftr v 18))
        (String (digit (N.shiftr v 12)) (String (digit (N.shiftr v 6)) "="))
  | String a (String b (String c rest)) =>
      let v := N.lor (N.lor (N.shiftl (byte_val a) 16) (N.shiftl (byte_val b) 8))
                     (byte_val c) in
      String (digit (N.shiftr v 18))
        (String (digit (N.shiftr v 12))
           (String (digit (N.shiftr v 6))
              (String (digit v) (EncodeToString rest))))
  end.

End base64.

(** ** Errors *)

Inductive error :=
| errorString (msg : string)
| wrapError (msg : string) (cause : error)
| statusError (code : Z) (body : string).

Inductive result (A : Type) :=
| Ok (a : A)
| Failed (e : error).
Arguments Ok {A} a.
Arguments Failed {A} e.

(** ** Package [io] *)

Module io.

(** A byte stream, by what reading it to the end gives: the bytes it
    produces and how it stops, at [io.EOF] ([None]) or with an error. *)
Record Reader := mkReader { stream : string; fault : option error }.

(** [io.LimitReader(r, n)] stops with [io.EOF] after [n] bytes and does
    not look at what [r] would have done next. *)
Definition LimitReader (r : Reader) (n : Z) : Reader :=
  {| stream := slice_to (Z.to_nat n) (stream r);
     fault := if (Z.of_nat (len (stream r)) <? n)%Z then fault r else None |}.

(** [io.ReadAll(r)]: the bytes read, and the error unless it is [io.EOF]. *)
Definition ReadAll (r : Reader) : string * option error :=
  (stream r, fault r).

End io.

(** ** Package [github.com/emersion/go-message], as parsed data *)

Module message.

(** The result of [Header.ContentType()]: media type, parameters, error.
    It is what [mime.ParseMediaType] makes of the Content-Type field and
    is kept with the header as data. *)
Definition ContentTypeResult : Type :=
  string * list (string * string) * option error.

(** A header: its fields under their canonical keys, in order. *)
Record Header := mkHeader {
  fields : list (string * string);
  ContentType : ContentTypeResult
}.

(** [Header.Get(k)]: the first value of field [k], or "". *)
Fixpoint lookup_field (k : string) (fs : list (string * string)) : string :=
  match fs with
  | [] => ""
  | (k', v) :: fs' => if String.eqb k k' then v else lookup_field k fs'
  end.

Definition Get (h : Header) (k : string) : string :=
  lookup_field k (fields h).

(** An entity: its header, its body as a stream, and what its
    [MultipartReader()] gives: [None] for the nil reader, otherwise the
    parts that [NextPart] returns until it answers [io.EOF] or an error
    (the walker stops at either). *)
Inductive Entity :=
| mkEntity (Header : Header) (Body : io.Reader) (Parts : option (list Entity)).

Definition Header_of (e : Entity) : Header :=
  match e with mkEntity h _ _ => h end.
Definition Body (e : Entity) : io.Reader :=
  match e with mkEntity _ b _ => b end.
Definition MultipartReader (e : Entity) : option (list Entity) :=
  match e with mkEntity _ _ ps => ps end.

End message.

Import message.

(** [message.Read]: the MIME parser.  The program treats any error it
    reports as a failure to parse. *)
Class Parser := message_Read : string -> result Entity.

(** A Go map is ranged over in an unspecified order: some arrangement of
    its entries. *)
Class MapRange := {
  range_of : gmap string string -> list (string * string);
  range_of_perm : forall m : gmap string string, range_of m ≡ₚ map_to_list m
}.

(** ** [extractBodyParts]

    The walker is instrumented with a log: every execution of the
    rewriting block at the end of the function (the loop over
    [inlineImages]) leaves a [RewriteCall] with the nesting depth of the
    call of [extractBodyParts] it belongs to, the html it was given and the
    image map it ranged over. *)

Record RewriteCall := mkRewriteCall {
  call_depth : nat;
  call_html : string;
  call_images : gmap string string
}.

(** The variables of the loop over the parts. *)
Record Walk := mkWalk {
  w_text : string;
  w_html : string;
  w_images : gmap string string;
  w_log : list RewriteCall
}.

Definition dataURI (partMediaType body : string) : string :=
  "data:" +:+ partMediaType +:+ ";base64," +:+ base64.EncodeToString body.

(** A part is stored as an inline image. *)
Definition is_inline_image (part : Entity) : bool :=
  let '(partMediaType, _, _) := ContentType (Header_of part) in
  strings.HasPrefix partMediaType "image/"
  && negb (is_empty (Get (Header_of part) "Content-Id")).

(** A part that is no inline image is walked into. *)
Definition is_walked (part : Entity) : bool :=
  let contentDisposition := Get (Header_of part) "Content-Disposition" in
  is_empty contentDisposition
  || negb (strings.HasPrefix contentDisposition "attachment").

(** One turn of the loop over the parts; [recurse] is the recursive call. *)
Definition visit (recurse : Entity -> string * string * list RewriteCall)
    (w : Walk) (part : Entity) : Walk :=
  let '(partMediaType, _, _) := ContentType (Header_of part) in
  let contentID := Get (Header_of part) "Content-Id" in
  if is_inline_image part then
    let contentID := strings.Trim contentID "<>" in
    match io.ReadAll (Body part) with
    | (body, None) =>
        mkWalk (w_text w) (w_html w)
          (<[contentID := dataURI partMediaType body]> (w_images w)) (w_log w)
    | (_, Some _) => w
    end
  else if is_walked part then
    let '(partText, partHTML, calls) := recurse part in
    let text :=
      if negb (is_empty partText) && is_empty (w_text w)
      then partText else w_text w in
    let html := if negb (is_empty partHTML) then partHTML else w_html w in
    mkWalk text html (w_images w) (w_log w ++ calls)
  else w.

(** The Reference Rewriter: the loop over [inlineImages]. *)
Definition rewrite_cids (entries : list (string * string)) (html : string) : string :=
  fold_left
    (fun html '(contentID, uri) => strings.ReplaceAll html ("cid:" +:+ contentID) uri)
    entries html.

(** The end of [extractBodyParts]: rewrite, then return. *)
Definition finish `{MapRange} (depth : nat) (w : Walk)
    : string * string * list RewriteCall :=
  if negb (is_empty (w_html w)) && (0 <? size (w_images w))
  then (w_text w, rewrite_cids (range_of (w_images w)) (w_html w),
        w_log w ++ [mkRewriteCall depth (w_html w) (w_images w)])
  else (w_text w, w_html w, w_log w).

Definition read_or_empty (r : io.Reader) : string :=
  match io.ReadAll r with
  | (body, None) => body
  | (_, Some _) => ""
  end.

Fixpoint extractBodyParts_at `{MapRange} (depth : nat) (entity : Entity)
    : string * string * list RewriteCall :=
  match entity with
  | mkEntity header body parts =>
      match ContentType header with
      | (_, _, Some _) => (fst (io.ReadAll body), "", [])
      | (mediaType, params, None) =>
          if strings.HasPrefix mediaType "multipart/" then
            match parts with
            | None => ("", "", [])
            | Some ps =>
                finish depth
                  (fold_left (visit (extractBodyParts_at (S depth))) ps
                             (mkWalk "" "" ∅ []))
            end
          else if String.eqb mediaType "text/plain" then
            finish depth (mkWalk (read_or_empty body) "" ∅ [])
          else if String.eqb mediaType "text/html" then
            finish depth (mkWalk "" (read_or_empty body) ∅ [])
          else
            finish depth (mkWalk (read_or_empty body) "" ∅ [])
      end
  end.

(** [extractBodyParts(entity)]: the text and the html. *)
Definition extractBodyParts `{MapRange} (entity : Entity) : string * string :=
  fst (extractBodyParts_at 0 entity).

(** The executions of the rewriting block during [extractBodyParts(entity)]. *)
Definition rewriter_calls `{MapRange} (entity : Entity) : list RewriteCall :=
  snd (extractBodyParts_at 0 entity).

(** ** [parseEmail] *)

Definition parseEmail `{Parser} `{MapRange} (data : string)
    : string * string * string :=
  match message_Read data with
  | Failed _ => ("No Subject", data, "")
  | Ok entity =>
      let header := Header_of entity in
      let subjectHeader := Get header "Subject" in
      let subject :=
        if negb (is_empty subjectHeader) then subjectHeader else "No Subject" in
      let '(text, html) := extractBodyParts entity in
      let text := if is_empty text && negb (is_empty html) then html else text in
      (subject, strings.TrimSpace text, strings.TrimSpace html)
  end.

(** ** The SMTP session *)

Definition MaxEmailSize : Z := 10 * 1024 * 1024.
Arguments MaxEmailSize : simpl never.

(** [EmailRequest]: the request to the Yundera email API. *)
Record EmailRequest := mkEmailRequest {
  To : string;
  Subject : string;
  Text : string;
  HTML : string;
  AppName : string
}.

Record SMTPBackend := mkSMTPBackend {
  jwtToken : string;
  orchestratorURL : string
}.

Record SMTPSession := mkSMTPSession {
  backend : SMTPBackend;
  appName : string;
  from : string;
  to : list string;
  authUser : string
}.

(** An HTTP request as [forwardToAPI] builds it; the body is the
    [EmailRequest] that [json.Marshal] serialises. *)
Record Request := mkRequest {
  Method : string;
  URL : string;
  HeaderContentType : string;
  HeaderAuthorization : string;
  Payload : EmailRequest
}.

Record Response := mkResponse {
  StatusCode : Z;
  ResponseBody : string
}.

(** The network: whether [http.NewRequest] accepts a method and a URL, and
    what [client.Do] answers to a request, given the requests it was
    called with before. *)
Class HTTPClient := {
  NewRequest_error : string -> string -> option error;
  client_Do : list Request -> Request -> result Response
}.

(** A connection: the session of the client and the requests [client.Do]
    has been called with so far, oldest first.  A request whose exchange
    failed is among them, whether or not it left the machine. *)
Record Conn := mkConn {
  session : SMTPSession;
  sent : list Request
}.

(** The callbacks run on the connection. *)
Definition M (A : Type) : Type := Conn -> A * Conn.

Definition ret {A : Type} (a : A) : M A := fun c => (a, c).

Definition bind {A B : Type} (m : M A) (k : A -> M B) : M B :=
  fun c => let '(a, c') := m c in k a c'.

Notation "'let*' x ':=' m 'in' k" := (bind m (fun x => k))
  (at level 10, x name, m at level 100, k at level 200).

Definition get_session : M SMTPSession := fun c => (session c, c).

Definition put_session (s : SMTPSession) : M unit :=
  fun c => (tt, mkConn s (sent c)).

(** [client.Do(req)]: the call is recorded with its request, whatever it
    answers. *)
Definition do_request `{HTTPClient} (req : Request) : M (result Response) :=
  fun c => (client_Do (sent c) req, mkConn (session c) (sent c ++ [req])).

(** [NewSession] *)
Definition NewSession (b : SMTPBackend) : SMTPSession :=
  mkSMTPSession b "" "" [] "".

(** The function that [Auth] hands to [sasl.NewPlainServer]. *)
Definition Auth `{Unicode} (identity username password : string) : M (option error) :=
  let* s := get_session in
  let* _ := put_session
         (mkSMTPSession (backend s) (sanitizeAppName username) (from s) (to s)
            username) in
  ret None.

Definition Mail (from' : string) : M (option error) :=
  let* s := get_session in
  let* _ := put_session
         (mkSMTPSession (backend s) (appName s) from' (to s) (authUser s)) in
  ret None.

Definition Rcpt (to' : string) : M (option error) :=
  let* s := get_session in
  let* _ := put_session
         (mkSMTPSession (backend s) (appName s) (from s) (to s ++ [to'])
            (authUser s)) in
  ret None.

Definition Reset : M unit :=
  let* s := get_session in
  put_session (mkSMTPSession (backend s) (appName s) "" [] (authUser s)).

Definition Logout : M (option error) := ret None.

Definition forwardToAPI `{HTTPClient}
    (recipientEmail subject text html appName : string) : M (option error) :=
  let* s := get_session in
  let emailReq := mkEmailRequest recipientEmail subject text html appName in
  let url := orchestratorURL (backend s) +:+ "/email/send" in
  match NewRequest_error "POST" url with
  | Some err => ret (Some (wrapError "failed to create HTTP request" err))
  | None =>
      let req :=
        mkRequest "POST" url "application/json"
          ("Bearer " +:+ jwtToken (backend s)) emailReq in
      let* resp := do_request req in
      match resp with
      | Failed err => ret (Some (wrapError "failed to send HTTP request" err))
      | Ok resp =>
          if (StatusCode resp =? 200)%Z then ret None
          else ret (Some (statusError (StatusCode resp) (ResponseBody resp)))
      end
  end.

Definition Data `{Unicode} `{Parser} `{MapRange} `{HTTPClient} (r : io.Reader)
    : M (option error) :=
  match io.ReadAll (io.LimitReader r MaxEmailSize) with
  | (_, Some err) => ret (Some err)
  | (data, None) =>
      let '(subject, text, html) := parseEmail data in
      let* s := get_session in
      match to s with
      | [] => ret (Some (errorString "no recipients specified"))
      | recipientEmail :: _ =>
          let appName := appName s in
          let appName :=
            if is_empty appName then
              if negb (is_empty (from s)) then
                match strings.Split (from s) "@" with
                | part0 :: _ => sanitizeAppName part0
                | [] => appName
                end
              else appName
            else appName in
          let appName := if is_empty appName then "app" else appName in
          forwardToAPI recipientEmail subject text html appName
      end
  end.

(** ** Instances to run the definitions on *)

(** Keys in the order [map_to_list] lists them. *)
Definition range_listed : MapRange :=
  {| range_of := map_to_list; range_of_perm := fun m => reflexivity _ |}.

(** Keys in the opposite order. *)
Definition range_reversed : MapRange :=
  {| range_of := fun m => reverse (map_to_list m);
     range_of_perm := fun m => reverse_Permutation _ |}.

(** A string that is not pure ASCII left as it is. *)
Definition unicode_unchanged : Unicode := fun s => s.

(** A parser that refuses everything, and one that reads every message as
    the given entity. *)
Definition parser_refuses : Parser := fun _ => Failed (errorString "malformed").
Definition parser_reads (entity : Entity) : Parser := fun _ => Ok entity.

(** An API that answers 200 to everything. *)
Definition api_accepts : HTTPClient :=
  {| NewRequest_error := fun _ _ => None;
     client_Do := fun _ _ => Ok (mkResponse 200 "") |}.

(** ** What the specification speaks of *)

(** The loop over the parts of one multipart entity, from the variables [w]. *)
Definition walk_parts `{MapRange} (depth : nat) (ps : list Entity) (w : Walk) : Walk :=
  fold_left (visit (extractBodyParts_at (S depth))) ps w.

Definition walk_start : Walk := mkWalk "" "" ∅ [].

(** The text, html and image map of the loop. *)
Definition vars (w : Walk) : string * string * gmap string string :=
  (w_text w, w_html w, w_images w).

(** The parts handled by the default rule: walked into. *)
Definition by_default_rule (part : Entity) : bool :=
  negb (is_inline_image part) && is_walked part.

(** The attachment rule's test. *)
Definition is_attachment (part : Entity) : bool :=
  strings.HasPrefix (Get (Header_of part) "Content-Disposition") "attachment".

Fixpoint first_nonempty (l : list string) : string :=
  match l with
  | [] => ""
  | s :: l' => if is_empty s then first_nonempty l' else s
  end.

Fixpoint last_nonempty (l : list string) : string :=
  match l with
  | [] => ""
  | s :: l' => let r := last_nonempty l' in if is_empty r then s else r
  end.

(** The image map one inline image part leaves. *)
Definition store_image (images : gmap string string) (part : Entity)
    : gmap string string :=
  let '(partMediaType, _, _) := ContentType (Header_of part) in
  match io.ReadAll (Body part) with
  | (body, None) =>
      <[strings.Trim (Get (Header_of part) "Content-Id") "<>"
        := dataURI partMediaType body]> images
  | (_, Some _) => images
  end.

(** The image map of one level: its inline image parts, in order. *)
Definition collect_images (ps : list Entity) (images : gmap string string)
    : gmap string string :=
  fold_left (fun m part => if is_inline_image part then store_image m part else m)
    ps images.

(** A logged execution of the rewriting block at depth [d] or deeper, with
    the guard of the block: html and image map both non-empty. *)
Definition guarded_call (d : nat) (c : RewriteCall) : Prop :=
  d <= call_depth c /\ call_html c <> "" /\ call_images c <> ∅.

(** The text and the html a part gives when walked into. *)
Definition text_of `{MapRange} (part : Entity) : string :=
  fst (extractBodyParts part).
Definition html_of `{MapRange} (part : Entity) : string :=
  snd (extractBodyParts part).

(** [new] cannot take part in an occurrence of [p]: [p] does not occur in
    [new], no end of [p] starts [new] or is started by it, and no proper
    beginning of [p] ends [new]. *)
Definition inert (p new : string) : bool :=
  negb (strings.Contains new p)
  && forallb
       (fun k =>
          negb (strings.HasPrefix new (slice_from k p))
          && negb (strings.HasPrefix (slice_from k p) new))
       (seq 0 (len p))
  && forallb (fun k => negb (strings.HasSuffix new (slice_to k p)))
       (seq 1 (len p - 1)).

(** The specification's wording of the resolved html: in one pass from the
    left, every reference cid:<content-id> to an entry is replaced by the
    data-URI of that entry, once, and everything else is kept. *)
Definition ref_at (entries : list (string * string)) (s : string)
    : option (string * string) :=
  List.find (fun e => strings.HasPrefix s ("cid:" +:+ e.1)) entries.

Fixpoint substitute_from (entries : list (string * string)) (skip : nat)
    (s : string) : string :=
  match s with
  | EmptyString => ""
  | String c s' =>
      match skip with
      | S k => substitute_from entries k s'
      | O =>
          match ref_at entries s with
          | Some (id, D) =>
              D +:+ substitute_from entries (len ("cid:" +:+ id) - 1) s'
          | None => String c (substitute_from entries 0 s')
          end
      end
  end.

Definition substitute_refs (images : gmap string string) (html : string) : string :=
  substitute_from (map_to_list images) 0 html.

(** The entries keep apart: every content-id is listed once, no data-URI
    can take part in an occurrence of a reference, and no reference can
    take part in an occurrence of another one. *)
Definition apart (entries : list (string * string)) : Prop :=
  NoDup entries.*1
  /\ (forall id1 D1 id2 D2,
        In (id1, D1) entries -> In (id2, D2) entries ->
        inert ("cid:" +:+ id1) D2 = true)
  /\ (forall id1 D1 id2 D2,
        In (id1, D1) entries -> In (id2, D2) entries -> id1 <> id2 ->
        inert ("cid:" +:+ id1) ("cid:" +:+ id2) = true).

(** The application label [Data] sends: the authenticated one, else the
    local part of the envelope sender sanitised, else "app". *)
Definition label_for `{Unicode} (s : SMTPSession) : string :=
  let appName := appName s in
  let appName :=
    if is_empty appName then
      if negb (is_empty (from s)) then
        match strings.Split (from s) "@" with
        | part0 :: _ => sanitizeAppName part0
        | [] => appName
        end
      else appName
    else appName in
  if is_empty appName then "app" else appName.

(** The callbacks of one transaction, one after the other. *)
Definition run_rcpts (ts : list string) (c : Conn) : Conn :=
  fold_left (fun c t => snd (Rcpt t c)) ts c.

(** ** Sample messages *)

(** A header whose Content-Type parses to [mediaType] and [params]. *)
Definition typed_header (mediaType : string) (params : list (string * string))
    (fs : list (string * string)) : Header :=
  mkHeader fs (mediaType, params, None).

(** A single part with the given fields and body. *)
Definition leaf_part (mediaType : string) (fs : list (string * string))
    (body : string) : Entity :=
  mkEntity (typed_header mediaType [] fs) (io.mkReader body None) None.

(** A multipart entity of the given parts. *)
Definition multipart (mediaType : string) (ps : list Entity) : Entity :=
  mkEntity (typed_header mediaType [("boundary", "b")] [])
    (io.mkReader "" None) (Some ps).

Definition html_with_cid : Entity :=
  leaf_part "text/html" [] "<img src=cid:img1>".

Definition inline_png : Entity :=
  leaf_part "image/png" [("Content-Id", "<img1>")] "abc".

Definition attached_png : Entity :=
  leaf_part "image/png"
    [("Content-Id", "<img1>"); ("Content-Disposition", "attachment; filename=a.png")]
    "abc".

Definition attached_pdf : Entity :=
  leaf_part "application/pdf"
    [("Content-Disposition", "attachment; filename=a.pdf")] "%PDF".

Definition inline_message : Entity :=
  multipart "multipart/related" [html_with_cid; inline_png].

Definition nested_related : Entity :=
  multipart "multipart/mixed"
    [multipart "multipart/related" [html_with_cid; inline_png]; attached_pdf].

Definition image_in_other_level : Entity :=
  multipart "multipart/mixed"
    [html_with_cid; multipart "multipart/related" [inline_png]].

(** The base64 of this image ends with the letter c, and the html puts
    "id:img1" right behind the reference. *)
Definition png_ending_in_c : Entity :=
  leaf_part "image/png" [("Content-Id", "<img1>")] "ab\".

Definition seam_message : Entity :=
  multipart "multipart/related"
    [leaf_part "text/html" [] "cid:img1id:img1"; png_ending_in_c].

(** Two images whose content-ids are img1 and img10, and html that refers
    to the second. *)
Definition ten_images : Entity :=
  multipart "multipart/related"
    [leaf_part "text/html" [] "<img src=cid:img10>";
     leaf_part "image/png" [("Content-Id", "<img1>")] "abc";
     leaf_part "image/gif" [("Content-Id", "<img10>")] "xyz"].

Definition two_texts : Entity :=
  multipart "multipart/alternative"
    [leaf_part "text/plain" [] "first"; leaf_part "text/plain" [] "second"].

Definition html_only : Entity :=
  leaf_part "text/html" [("Subject", "News")] " <p>Hi</p> ".

Definition plain_hi : Entity :=
  leaf_part "text/plain" [("Subject", "Hi")] "Hello".

Fixpoint repeat_byte (c : ascii) (n : nat) : string :=
  match n with
  | O => ""
  | S n' => String c (repeat_byte c n')
  end.
Arguments repeat_byte : simpl never.

(** A body one byte longer than [MaxEmailSize]. *)
Definition oversized : io.Reader :=
  io.mkReader (repeat_byte "a" (Z.to_nat (MaxEmailSize + 1))) None.

(** What the transport hands over for a body that is too large: it lets
    [MaxEmailSize] bytes through and fails the read after them. *)
Definition ErrDataTooLarge : error := errorString "Maximum message size exceeded".

Definition cut_by_transport : io.Reader :=
  io.mkReader (repeat_byte "a" (Z.to_nat MaxEmailSize)) (Some ErrDataTooLarge).

(** A body whose stream breaks. *)
Definition broken : io.Reader :=
  io.mkReader "Subject: hi" (Some (errorString "unexpected EOF")).

(** A connection with one recipient accepted. *)
Definition one_recipient : Conn :=
  mkConn
    (mkSMTPSession (mkSMTPBackend "token" "https://api.example") "" "" ["user@example.com"] "")
    [].

(** ** The callbacks in sequence *)

(** What the transport may call on a session. *)
Inductive Callback :=
| OnAuth (identity username password : string)
| OnMail (sender : string)
| OnRcpt (rcpt : string)
| OnData (r : io.Reader)
| OnReset
| OnLogout.

Definition run_callback `{Unicode} `{Parser} `{MapRange} `{HTTPClient}
    (cb : Callback) (c : Conn) : Conn :=
  match cb with
  | OnAuth identity username password => snd (Auth identity username password c)
  | OnMail sender => snd (Mail sender c)
  | OnRcpt rcpt => snd (Rcpt rcpt c)
  | OnData r => snd (Data r c)
  | OnReset => snd (Reset c)
  | OnLogout => snd (Logout c)
  end.

Definition run_callbacks `{Unicode} `{Parser} `{MapRange} `{HTTPClient}
    (cbs : list Callback) (c : Conn) : Conn :=
  fold_left (fun c cb => run_callback cb c) cbs c.

Definition is_auth (cb : Callback) : bool :=
  match cb with OnAuth _ _ _ => true | _ => false end.

(** A label as [sanitizeAppName] makes them. *)
Definition valid_label (l : string) : Prop :=
  l <> "" /\ len l <= 20 /\ str_forall allowed l = true.

(** A request as [forwardToAPI] builds it for the backend [b]. *)
Definition request_for (b : SMTPBackend) (req : Request) : Prop :=
  Method req = "POST"
  /\ URL req = orchestratorURL b +:+ "/email/send"
  /\ HeaderContentType req = "application/json"
  /\ HeaderAuthorization req = "Bearer " +:+ jwtToken b.

(** What every session keeps: its backend, a label that is empty or valid,
    and well-formed requests behind it. *)
Definition session_kept (b : SMTPBackend) (c : Conn) : Prop :=
  backend (session c) = b
  /\ (appName (session c) = "" \/ valid_label (appName (session c)))
  /\ Forall
       (fun req =>
          request_for b req
          /\ valid_label (AppName (Payload req))
          /\ Subject (Payload req) <> "")
       (sent c).

(** ** Where text and html come from *)

(** The key an inline image is stored under. *)
Definition image_key (part : Entity) : string :=
  strings.Trim (Get (Header_of part) "Content-Id") "<>".

(** The entity is, or holds in parts that are walked into, a text/html
    part whose body reads to something. *)
Inductive has_html_part : Entity -> Prop :=
| html_here (h : Header) (b : io.Reader) (parts : option (list Entity))
    (params : list (string * string)) :
    ContentType h = ("text/html", params, None) ->
    read_or_empty b <> "" ->
    has_html_part (mkEntity h b parts)
| html_below (h : Header) (b : io.Reader) (ps : list Entity) (mt : string)
    (params : list (string * string)) (p : Entity) :
    ContentType h = (mt, params, None) ->
    strings.HasPrefix mt "multipart/" = true ->
    In p ps -> by_default_rule p = true -> has_html_part p ->
    has_html_part (mkEntity h b (Some ps)).

(** The same for text: a part whose Content-Type does not parse and whose
    body gives bytes, or a part of a media type that is neither multipart
    nor text/html whose body reads to something. *)
Inductive has_text_part : Entity -> Prop :=
| text_unparsed (h : Header) (b : io.Reader) (parts : option (list Entity))
    (mt : string) (params : list (string * string)) (err : error) :
    ContentType h = (mt, params, Some err) ->
    fst (io.ReadAll b) <> "" ->
    has_text_part (mkEntity h b parts)
| text_here (h : Header) (b : io.Reader) (parts : option (list Entity))
    (mt : string) (params : list (string * string)) :
    ContentType h = (mt, params, None) ->
    strings.HasPrefix mt "multipart/" = false ->
    mt <> "text/html" ->
    read_or_empty b <> "" ->
    has_text_part (mkEntity h b parts)
| text_below (h : Header) (b : io.Reader) (ps : list Entity) (mt : string)
    (params : list (string * string)) (p : Entity) :
    ContentType h = (mt, params, None) ->
    strings.HasPrefix mt "multipart/" = true ->
    In p ps -> by_default_rule p = true -> has_text_part p ->
    has_text_part (mkEntity h b (Some ps)).

(** The string begins with the encoding of a white-space rune. *)
Definition starts_with_space (s : string) : bool :=
  match s with
  | String a s1 =>
      strings.is_space1 a
      || match s1 with
         | String b s2 =>
             strings.is_space2 a b
             || match s2 with
                | String c _ => strings.is_space3 a b c
                | EmptyString => false
                end
         | EmptyString => false
         end
  | EmptyString => false
  end.

(** ** [NewSMTPBackend], [AuthMechanisms], [StartSMTPServer] *)

Definition NewSMTPBackend (orchestratorURL jwtToken : string) : SMTPBackend :=
  mkSMTPBackend jwtToken orchestratorURL.

(** [sasl.Plain] *)
Definition AuthMechanisms : list string := ["PLAIN"].

(** The fields of [smtp.Server] the program sets; the timeouts in seconds. *)
Record Server := mkServer {
  Backend : SMTPBackend;
  Addr : string;
  Domain : string;
  AllowInsecureAuth : bool;
  MaxMessageBytes : Z;
  MaxRecipients : Z;
  ReadTimeout : Z;
  WriteTimeout : Z
}.

(** What the program does to the network: a listener opened on an address,
    a listener closed, a server started on a listener (the goroutine that
    runs [server.Serve]). *)
Inductive NetEvent :=
| Listened (addr : string)
| Closed (addr : string)
| Serving (srv : Server).

(** [net.Listen("tcp", addr)]: whether it fails, which may depend on what
    happened before. *)
Class Network := net_Listen : list NetEvent -> string -> option error.

(** The listeners open after the events: opened and not closed since. *)
Fixpoint open_listeners (evs : list NetEvent) (acc : list string) : list string :=
  match evs with
  | [] => acc
  | Listened addr :: evs' => open_listeners evs' (acc ++ [addr])
  | Closed addr :: evs' =>
      open_listeners evs'
        (List.filter (fun a => negb (String.eqb a addr)) acc)
  | Serving _ :: evs' => open_listeners evs' acc
  end.

Definition StartSMTPServer `{Network} (port orchestratorURL jwtToken : string)
    (evs : list NetEvent) : option error * list NetEvent :=
  if is_empty port then (Some (errorString "SMTP port is required"), evs)
  else if is_empty orchestratorURL then
    (Some (errorString "orchestrator URL is required"), evs)
  else if is_empty jwtToken then (Some (errorString "JWT token is required"), evs)
  else
    let backend := NewSMTPBackend orchestratorURL jwtToken in
    let server :=
      mkServer backend (":" +:+ port) "smtp.yundera.local" true MaxEmailSize 50
        30 30 in
    match net_Listen evs (":" +:+ port) with
    | Some err =>
        (Some (wrapError
                 ("port " +:+ port +:+ " is already in use or cannot bind") err),
         evs)
    | None =>
        let evs := evs ++ [Listened (":" +:+ port)] in
        let evs := evs ++ [Closed (":" +:+ port)] in
        match net_Listen evs (Addr server) with
        | Some err =>
            (Some (wrapError ("failed to listen on port " +:+ port) err), evs)
        | None =>
            let evs := evs ++ [Listened (Addr server)] in
            (None, evs ++ [Serving server])
        end
    end.

(** ** Packages [strconv] and [flag], as far as [main] uses them *)

Module strconv.

(** [strconv.ParseBool] *)
Definition ParseBool (str : string) : option bool :=
  if existsb (String.eqb str) ["1"; "t"; "T"; "TRUE"; "true"; "True"] then Some true
  else if existsb (String.eqb str) ["0"; "f"; "F"; "FALSE"; "false"; "False"]
  then Some false
  else None.

End strconv.

Module flag.

(** How [FlagSet.Parse] ends: the flags are read, with the value the bool
    variable holds then; [ErrHelp]; or another error. *)
Inductive Result :=
| Parsed (value : bool)
| ErrHelp
| Failed.

(** The loop of [parseOne] over a name: the name up to the first "=", and
    what follows it. *)
Fixpoint cut (name : string) : string * option string :=
  match name with
  | EmptyString => ("", None)
  | String c name' =>
      if Ascii.eqb c "=" then ("", Some name')
      else let '(n, v) := cut name' in (String c n, v)
  end.

(** [FlagSet.Parse(arguments)], the loop over [parseOne], for a flag set
    whose flags are the bool flags named in [formal], all bound to one
    variable that holds [value].  An argument of less than two bytes or
    without a leading "-" ends the flags, and so does "--"; a name that is
    empty or begins with "-" or "=" is bad syntax; a flag that is not
    defined is an error, [ErrHelp] when it is called help or h; a bool
    flag takes its value from behind "=" only, through
    [strconv.ParseBool], and is true without one. *)
Fixpoint Parse (formal : list string) (arguments : list string) (value : bool)
    : Result :=
  match arguments with
  | [] => Parsed value
  | s :: arguments' =>
      match s with
      | String c (String c1 rest) =>
          if negb (Ascii.eqb c "-") then Parsed value
          else if Ascii.eqb c1 "-" && is_empty rest then Parsed value
          else
            let name := if Ascii.eqb c1 "-" then rest else String c1 rest in
            match name with
            | EmptyString => Failed
            | String c0 name' =>
                if Ascii.eqb c0 "-" || Ascii.eqb c0 "=" then Failed
                else
                  let '(n, v) := cut name' in
                  let name := String c0 n in
                  if existsb (String.eqb name) formal then
                    match v with
                    | Some str =>
                        match strconv.ParseBool str with
                        | Some b => Parse formal arguments' b
                        | None => Failed
                        end
                    | None => Parse formal arguments' true
                    end
                  else if String.eqb name "help" || String.eqb name "h" then ErrHelp
                  else Failed
            end
      | _ => Parsed value
      end
  end.

End flag.

(** ** [main] *)

(** How [main] ends: [os.Exit], [log.Fatal] with its message and the error
    it prints, or the return after the interrupt signal. *)
Inductive Outcome :=
| Exited (code : Z)
| Fatal (msg : string) (cause : option error)
| ShutDown.

(** [flag.Parse()] in [main]: the command line [os.Args[1:]] read with the
    flags version and v, which share the variable [versionFlag], false at
    first. *)
Definition parse_flags (args : list string) : flag.Result :=
  flag.Parse ["version"; "v"] args false.

(** [main], given the command line [os.Args[1:]] and the environment.  The
    flag set of [flag.Parse] exits on an error: with code 0 for [ErrHelp],
    with code 2 otherwise. *)
Definition main `{Network} (args : list string) (getenv : string -> string)
    (evs : list NetEvent) : Outcome * list NetEvent :=
  match parse_flags args with
  | flag.ErrHelp => (Exited 0, evs)
  | flag.Failed => (Exited 2, evs)
  | flag.Parsed versionFlag =>
      if versionFlag then (Exited 0, evs)
      else
        let smtpPort := getenv "SMTP_PORT" in
        let smtpPort := if is_empty smtpPort then "587" else smtpPort in
        let orchestratorURL := getenv "ORCHESTRATOR_URL" in
        let orchestratorURL :=
          if is_empty orchestratorURL then "https://nasselle.com/service/pcs"
          else orchestratorURL in
        let userJWT := getenv "USER_JWT" in
        if is_empty userJWT then
          (Fatal "❌ ERROR: USER_JWT environment variable is required" None, evs)
        else
          match StartSMTPServer smtpPort orchestratorURL userJWT evs with
          | (Some err, evs') =>
              (Fatal "❌ Failed to start SMTP server" (Some err), evs')
          | (None, evs') => (ShutDown, evs')
          end
  end.

(** A network on which every listen succeeds. *)
Definition network_free : Network := fun _ _ => None.

(** ** More samples *)

(** Two images, logo and photo, and html that refers to both. *)
Definition two_images : Entity :=
  multipart "multipart/related"
    [leaf_part "text/html" [] "<img src=cid:logo><img src=cid:photo>";
     leaf_part "image/png" [("Content-Id", "<logo>")] "abc";
     leaf_part "image/gif" [("Content-Id", "<photo>")] "xyz"].

(** An html part that refers to no image. *)
Definition html_plain : Entity := leaf_part "text/html" [] "<p>Hi</p>".

(** A second image under the Content-Id of [inline_png], without brackets. *)
Definition inline_gif : Entity :=
  leaf_part "image/gif" [("Content-Id", "img1")] "xyz".

(** An environment that sets USER_JWT only. *)
Definition env_token_only (key : string) : string :=
  if String.eqb key "USER_JWT" then "token" else "".

(** What [main] does to a free network in that environment. *)
Definition started_by_default : list NetEvent :=
  [Listened ":587"; Closed ":587"; Listened ":587";
   Serving
     (mkServer (mkSMTPBackend "token" "https://nasselle.com/service/pcs") ":587"
        "smtp.yundera.local" true MaxEmailSize 50 30 30)].

(** The request for a message that does not parse, to the recipient of
    [one_recipient]. *)
Definition raw_request : Request :=
  mkRequest "POST" "https://api.example/email/send" "application/json"
    "Bearer token"
    (mkEmailRequest "user@example.com" "No Subject" "raw message" "" "app").

(** * Properties *)

(** ** Strings *)

Lemma sapp_nil_l (s : string) : "" +:+ s = s.
Proof. reflexivity. Qed.

Lemma sapp_cons (c : ascii) (s t : string) :
  String c s +:+ t = String c (s +:+ t).
Proof. reflexivity. Qed.

Lemma sapp_nil_r (s : string) : s +:+ "" = s.
Proof. induction s as [|c s IH]; [done|]. by rewrite sapp_cons, IH. Qed.

Lemma sapp_assoc (s t u : string) : (s +:+ t) +:+ u = s +:+ t +:+ u.
Proof. induction s as [|c s IH]; [done|]. by rewrite !sapp_cons, IH. Qed.

Lemma len_sapp (s t : string) : len (s +:+ t) = len s + len t.
Proof. induction s as [|c s IH]; [done|]. rewrite sapp_cons. simpl. by rewrite IH. Qed.

Lemma is_empty_true (s : string) : is_empty s = true <-> s = "".
Proof. by destruct s. Qed.

Lemma slice_to_all (n : nat) (s : string) : len s <= n -> slice_to n s = s.
Proof.
  revert n. induction s as [|c s IH]; intros [|n] Hn; simpl in *; try done; try lia.
  f_equal. apply IH. lia.
Qed.

Lemma len_slice_to (n : nat) (s : string) : len (slice_to n s) <= n.
Proof.
  revert s. induction n as [|n IH]; intros [|c s]; simpl; try lia.
  specialize (IH s). lia.
Qed.

Lemma str_forall_slice_to (p : ascii -> bool) (n : nat) (s : string) :
  str_forall p s = true -> str_forall p (slice_to n s) = true.
Proof.
  revert s. induction n as [|n IH]; intros [|c s]; simpl; try done.
  rewrite !andb_true_iff. intros [? ?]. auto.
Qed.

Lemma str_forall_filter (p : ascii -> bool) (s : string) :
  str_forall p (str_filter p s) = true.
Proof.
  induction s as [|c s IH]; [done|]. simpl.
  destruct (p c) eqn:Hc; [|done]. simpl. by rewrite Hc.
Qed.

Lemma str_filter_id (p : ascii -> bool) (s : string) :
  str_forall p s = true -> str_filter p s = s.
Proof.
  induction s as [|c s IH]; [done|]. simpl.
  rewrite andb_true_iff. intros [-> ?]. f_equal. auto.
Qed.

Lemma str_filter_none (p : ascii -> bool) (s : string) :
  str_forall (fun c => negb (p c)) s = true -> str_filter p s = "".
Proof.
  induction s as [|c s IH]; [done|]. simpl.
  rewrite andb_true_iff, negb_true_iff. intros [-> ?]. auto.
Qed.

Lemma str_forall_impl (p q : ascii -> bool) (s : string) :
  (forall c, p c = true -> q c = true) ->
  str_forall p s = true -> str_forall q s = true.
Proof.
  intros Hpq. induction s as [|c s IH]; [done|]. simpl.
  rewrite !andb_true_iff. intros [? ?]. auto.
Qed.

Lemma str_map_id (f : ascii -> ascii) (p : ascii -> bool) (s : string) :
  (forall c, p c = true -> f c = c) ->
  str_forall p s = true -> str_map f s = s.
Proof.
  intros Hf. induction s as [|c s IH]; [done|]. simpl.
  rewrite andb_true_iff. intros [? ?]. f_equal; auto.
Qed.

(** ** [sanitizeAppName] *)

Lemma allowed_is_ascii (c : ascii) : allowed c = true -> is_ascii c = true.
Proof. destruct c as [[] [] [] [] [] [] [] []]; vm_compute; congruence. Qed.

Lemma allowed_lower_byte (c : ascii) :
  allowed c = true -> strings.lower_byte c = c.
Proof. destruct c as [[] [] [] [] [] [] [] []]; vm_compute; congruence. Qed.

Lemma reg_matches (c : ascii) : regexp.MatchByte reg c = negb (allowed c).
Proof. destruct c as [[] [] [] [] [] [] [] []]; reflexivity. Qed.

Lemma reg_replace_filter (s : string) :
  regexp.ReplaceAllString reg s "" = str_filter allowed s.
Proof.
  induction s as [|c s IH]; [done|]. simpl.
  rewrite reg_matches. destruct (allowed c); simpl; by rewrite ?sapp_nil_l, IH.
Qed.

Lemma ToLower_allowed `{Unicode} (s : string) :
  str_forall allowed s = true -> strings.ToLower unicode_lower s = s.
Proof.
  intros Hs. unfold strings.ToLower.
  rewrite (str_forall_impl allowed is_ascii s allowed_is_ascii Hs).
  by apply (str_map_id _ allowed), Hs; apply allowed_lower_byte.
Qed.

Lemma sanitizeAppName_spec `{Unicode} (name : string) :
  sanitizeAppName name = label_of_spec name.
Proof.
  unfold sanitizeAppName, label_of_spec. rewrite reg_replace_filter.
  set (kept := str_filter allowed _).
  destruct (20 <? len kept) eqn:Hlen; [done|].
  apply Nat.ltb_ge in Hlen. by rewrite slice_to_all.
Qed.

Lemma label_of_spec_allowed `{Unicode} (name : string) :
  str_forall allowed (label_of_spec name) = true.
Proof.
  unfold label_of_spec.
  destruct (is_empty _) eqn:He; [done|].
  apply str_forall_slice_to, str_forall_filter.
Qed.

Lemma label_of_spec_len `{Unicode} (name : string) :
  1 <= len (label_of_spec name) <= 20.
Proof.
  unfold label_of_spec.
  destruct (is_empty _) eqn:He; [simpl; lia|].
  split; [|apply len_slice_to].
  destruct (slice_to 20 _); simpl in *; [done|lia].
Qed.

(** C8: [sanitizeAppName] lowercases its input, strips the characters
    outside [a-z0-9-], truncates to 20 characters and replaces an empty
    result with "app"; "MyApp_123!" gives "myapp123", and an input that is
    empty or has no allowed character once lowercased gives "app". *)
Theorem C8_sanitizeAppName_rule `{Unicode} :
  (forall name,
     sanitizeAppName name =
       let kept :=
         slice_to 20 (str_filter allowed (strings.ToLower unicode_lower name)) in
       if is_empty kept then "app" else kept)
  /\ sanitizeAppName "MyApp_123!" = "myapp123"
  /\ sanitizeAppName "" = "app"
  /\ (forall name,
        str_forall (fun c => negb (allowed c))
          (strings.ToLower unicode_lower name) = true ->
        sanitizeAppName name = "app")
  /\ (forall name,
        str_forall (fun c => is_ascii c && negb (allowed (strings.lower_byte c)))
          name = true ->
        sanitizeAppName name = "app").
Proof.
  split; [apply sanitizeAppName_spec|].
  split; [reflexivity|]. split; [reflexivity|]. split.
  - intros name Hname. rewrite sanitizeAppName_spec. unfold label_of_spec.
    by rewrite (str_filter_none _ _ Hname).
  - intros name Hname. rewrite sanitizeAppName_spec. unfold label_of_spec.
    unfold strings.ToLower.
    rewrite (str_forall_impl _ is_ascii name
               (fun c Hc => proj1 (proj1 (andb_true_iff _ _) Hc)) Hname).
    rewrite str_filter_none; [done|].
    clear -Hname. induction name as [|c s IH]; [done|]. simpl in *.
    apply andb_true_iff in Hname as [[_ ->]%andb_true_iff ?]. auto.
Qed.

(** C10: the result of [sanitizeAppName] is a non-empty string of at most
    20 characters of [a-z0-9-], and sanitising it again changes nothing. *)
Theorem C10_sanitizeAppName_closed `{Unicode} (s : string) :
  sanitizeAppName s <> ""
  /\ len (sanitizeAppName s) <= 20
  /\ str_forall allowed (sanitizeAppName s) = true
  /\ sanitizeAppName (sanitizeAppName s) = sanitizeAppName s.
Proof.
  rewrite !sanitizeAppName_spec.
  pose proof (label_of_spec_len s) as [Hlo Hhi].
  pose proof (label_of_spec_allowed s) as Hall.
  split; [intros E; rewrite E in Hlo; simpl in Hlo; lia|].
  split; [done|]. split; [done|].
  set (r := label_of_spec s) in *.
  unfold label_of_spec at 1.
  rewrite (ToLower_allowed r Hall), (str_filter_id _ _ Hall), (slice_to_all _ _ Hhi).
  destruct r; simpl in *; [lia|done].
Qed.

(** ** The walker *)

Lemma Entity_parts_ind (P : Entity -> Prop) :
  (forall h b, P (mkEntity h b None)) ->
  (forall h b ps, Forall P ps -> P (mkEntity h b (Some ps))) ->
  forall e, P e.
Proof.
  intros Hleaf Hnode. fix IH 1. intros [h b [ps|]]; [|apply Hleaf].
  apply Hnode. induction ps as [|p ps IHps]; constructor; [apply IH|apply IHps].
Qed.

Section Walker.
Context `{MapRange}.

Lemma finish_vars (d : nat) (w : Walk) :
  fst (finish d w) =
  (w_text w,
   if negb (is_empty (w_html w)) && (0 <? size (w_images w))
   then rewrite_cids (range_of (w_images w)) (w_html w) else w_html w).
Proof. unfold finish. by destruct (_ && _). Qed.

Lemma finish_no_images (d : nat) (t h : string) (log : list RewriteCall) :
  finish d (mkWalk t h ∅ log) = (t, h, log).
Proof. unfold finish. simpl. by rewrite andb_false_r. Qed.

Lemma visit_skipped (rec : Entity -> string * string * list RewriteCall)
    (w : Walk) (p : Entity) :
  is_inline_image p = false -> is_walked p = false -> visit rec w p = w.
Proof.
  intros Hi Hw. unfold visit. destruct (ContentType _) as [[mt params] err].
  by rewrite Hi, Hw.
Qed.

Lemma visit_image (rec : Entity -> string * string * list RewriteCall)
    (w : Walk) (p : Entity) :
  is_inline_image p = true ->
  visit rec w p = mkWalk (w_text w) (w_html w) (store_image (w_images w) p) (w_log w).
Proof.
  intros Hi. unfold visit, store_image.
  destruct (ContentType _) as [[mt params] err]. rewrite Hi.
  destruct (io.ReadAll _) as [body [e|]]; [by destruct w|done].
Qed.

Lemma visit_walked (rec : Entity -> string * string * list RewriteCall)
    (w : Walk) (p : Entity) :
  by_default_rule p = true ->
  visit rec w p =
  mkWalk
    (if negb (is_empty (fst (fst (rec p)))) && is_empty (w_text w)
     then fst (fst (rec p)) else w_text w)
    (if negb (is_empty (snd (fst (rec p)))) then snd (fst (rec p)) else w_html w)
    (w_images w) (w_log w ++ snd (rec p)).
Proof.
  intros [Hi%negb_true_iff Hw]%andb_true_iff. unfold visit.
  destruct (ContentType _) as [[mt params] err]. rewrite Hi, Hw.
  by destruct (rec p) as [[t h] calls].
Qed.

(** The three rules are exclusive and cover every part. *)
Lemma part_rules (p : Entity) :
  is_inline_image p = true
  \/ by_default_rule p = true
  \/ (is_inline_image p = false /\ is_walked p = false).
Proof.
  unfold by_default_rule. destruct (is_inline_image p), (is_walked p); auto.
Qed.

Lemma visit_vars_ext (rec1 rec2 : Entity -> string * string * list RewriteCall)
    (w1 w2 : Walk) (p : Entity) :
  fst (rec1 p) = fst (rec2 p) -> vars w1 = vars w2 ->
  vars (visit rec1 w1 p) = vars (visit rec2 w2 p).
Proof.
  intros Hrec Hw. unfold vars in Hw. injection Hw as Ht Hh Hm.
  destruct (part_rules p) as [Hp|[Hp|[Hp1 Hp2]]].
  - rewrite !visit_image by done. unfold vars; simpl. by rewrite Ht, Hh, Hm.
  - rewrite !visit_walked by done. unfold vars; simpl.
    by rewrite Hrec, Ht, Hh, Hm.
  - rewrite !visit_skipped by done. unfold vars. by rewrite Ht, Hh, Hm.
Qed.

Lemma fold_visit_vars_ext (rec1 rec2 : Entity -> string * string * list RewriteCall)
    (ps : list Entity) (w1 w2 : Walk) :
  Forall (fun p => fst (rec1 p) = fst (rec2 p)) ps -> vars w1 = vars w2 ->
  vars (fold_left (visit rec1) ps w1) = vars (fold_left (visit rec2) ps w2).
Proof.
  intros Hps. revert w1 w2. induction Hps as [|p ps Hp _ IH]; intros w1 w2 Hw.
  - done.
  - simpl. apply IH. by apply visit_vars_ext.
Qed.

Lemma finish_vars_ext (d1 d2 : nat) (w1 w2 : Walk) :
  vars w1 = vars w2 -> fst (finish d1 w1) = fst (finish d2 w2).
Proof.
  intros Hw. unfold vars in Hw. injection Hw as Ht Hh Hm.
  rewrite !finish_vars. by rewrite Ht, Hh, Hm.
Qed.

(** The text and the html do not depend on the depth the log is tagged with. *)
Lemma extractBodyParts_at_depth (e : Entity) (d1 d2 : nat) :
  fst (extractBodyParts_at d1 e) = fst (extractBodyParts_at d2 e).
Proof.
  revert d1 d2. induction e as [h b|h b ps IH] using Entity_parts_ind;
    intros d1 d2; simpl;
    destruct (ContentType h) as [[mt params] [err|]]; try done;
    destruct (strings.HasPrefix mt "multipart/"); try done;
    try (repeat (destruct (String.eqb mt _)); by apply finish_vars_ext).
  apply finish_vars_ext, fold_visit_vars_ext; [|done].
  eapply Forall_impl; [exact IH|]. intros p Hp. apply Hp.
Qed.

Lemma extractBodyParts_at_fst (e : Entity) (d : nat) :
  fst (extractBodyParts_at d e) = extractBodyParts e.
Proof. apply extractBodyParts_at_depth. Qed.

End Walker.

Section Levels.
Context `{MapRange}.

Lemma walk_parts_vars (d : nat) (ps : list Entity) (w : Walk) :
  vars (walk_parts d ps w) =
  (first_nonempty (w_text w :: map text_of (List.filter by_default_rule ps)),
   last_nonempty (w_html w :: map html_of (List.filter by_default_rule ps)),
   collect_images ps (w_images w)).
Proof.
  unfold walk_parts. revert w. induction ps as [|p ps IH]; intros w.
  - simpl. unfold vars. by destruct (w_text w), (w_html w).
  - cbn [fold_left]. rewrite IH. clear IH.
    destruct (part_rules p) as [Hp|[Hp|[Hp1 Hp2]]].
    + rewrite visit_image by done. cbn [w_text w_html w_images List.filter collect_images fold_left].
      unfold by_default_rule. by rewrite Hp.
    + rewrite visit_walked by done.
      cbn [w_text w_html w_images List.filter collect_images fold_left].
      rewrite Hp. apply andb_true_iff in Hp as [->%negb_true_iff _].
      rewrite extractBodyParts_at_fst. fold (text_of p) (html_of p).
      cbn [map first_nonempty last_nonempty].
      destruct (w_text w), (text_of p), (html_of p);
        destruct (last_nonempty _); reflexivity.
    + rewrite visit_skipped by done.
      cbn [List.filter collect_images fold_left].
      unfold by_default_rule. by rewrite Hp1, Hp2.
Qed.

Lemma filter_all {A : Type} (f : A -> bool) (l : list A) :
  Forall (fun x => f x = true) l -> List.filter f l = l.
Proof. induction 1 as [|x l Hx _ IH]; simpl; [done|]. by rewrite Hx, IH. Qed.

Lemma collect_images_default (ps : list Entity) (m : gmap string string) :
  Forall (fun p => by_default_rule p = true) ps -> collect_images ps m = m.
Proof.
  unfold collect_images. induction 1 as [|p ps Hp _ IH]; simpl; [done|].
  apply andb_true_iff in Hp as [->%negb_true_iff _]. apply IH.
Qed.

Lemma extract_multipart (d : nat) (h : Header) (b : io.Reader) (ps : list Entity)
    (mt : string) (params : list (string * string)) :
  ContentType h = (mt, params, None) ->
  strings.HasPrefix mt "multipart/" = true ->
  extractBodyParts_at d (mkEntity h b (Some ps)) =
  finish d (walk_parts d ps walk_start).
Proof. intros Hct Hmt. simpl. by rewrite Hct, Hmt. Qed.

Lemma extract_leaf (d : nat) (h : Header) (b : io.Reader) (ps : option (list Entity))
    (mt : string) (params : list (string * string)) :
  ContentType h = (mt, params, None) ->
  strings.HasPrefix mt "multipart/" = false ->
  extractBodyParts_at d (mkEntity h b ps) =
  if String.eqb mt "text/html" then ("", read_or_empty b, [])
  else (read_or_empty b, "", []).
Proof.
  intros Hct Hmt. simpl. rewrite Hct, Hmt.
  destruct (String.eqb mt "text/plain") eqn:Hp.
  - apply String.eqb_eq in Hp as ->. by rewrite finish_no_images.
  - destruct (String.eqb mt "text/html"); by rewrite finish_no_images.
Qed.

End Levels.

(** ** The merge rules of one level *)

(** C4, as the code has it: when every part of a multipart entity is
    handled by the default rule, the text is the first non-empty text the
    recursive calls return, in document order, and the html the last
    non-empty html.  With two text/plain parts whose bodies are read, the
    text is the content of the first one when that is not empty and the
    content of the second one otherwise, never both contents joined; the
    normalised text is that text trimmed by [strings.TrimSpace], and so
    the content of the first part when that is not empty and has no white
    space at its ends. *)
Theorem C4_first_text_last_html `{Parser} `{MapRange} (h : Header) (b : io.Reader)
    (ps : list Entity) (mt : string) (params : list (string * string)) :
  ContentType h = (mt, params, None) ->
  strings.HasPrefix mt "multipart/" = true ->
  Forall (fun p => by_default_rule p = true) ps ->
  extractBodyParts (mkEntity h b (Some ps)) =
    (first_nonempty (map text_of ps), last_nonempty (map html_of ps))
  /\ (forall p1 p2 params1 params2 b1 b2,
        ps = [p1; p2] ->
        ContentType (Header_of p1) = ("text/plain", params1, None) ->
        ContentType (Header_of p2) = ("text/plain", params2, None) ->
        io.ReadAll (Body p1) = (b1, None) ->
        io.ReadAll (Body p2) = (b2, None) ->
        extractBodyParts (mkEntity h b (Some ps)) =
          (if is_empty b1 then b2 else b1, "")
        /\ (b1 <> "" -> fst (extractBodyParts (mkEntity h b (Some ps))) = b1)
        /\ (forall data,
              message_Read data = Ok (mkEntity h b (Some ps)) ->
              snd (fst (parseEmail data)) =
              strings.TrimSpace (if is_empty b1 then b2 else b1)
              /\ (b1 <> "" -> strings.TrimSpace b1 = b1 ->
                  snd (fst (parseEmail data)) = b1))).
Proof.
  intros Hct Hmt Hps.
  assert (extractBodyParts (mkEntity h b (Some ps)) =
          (first_nonempty (map text_of ps), last_nonempty (map html_of ps))) as Hgen.
  { unfold extractBodyParts. rewrite (extract_multipart 0 h b ps mt params Hct Hmt).
    pose proof (walk_parts_vars 0 ps walk_start) as Hv.
    rewrite (filter_all _ _ Hps), (collect_images_default _ _ Hps) in Hv.
    unfold vars in Hv. injection Hv as Ht Hh Hm.
    rewrite finish_vars, Ht, Hh, Hm. cbn [walk_start w_text w_html w_images].
    rewrite map_size_empty, andb_false_r.
    cbn [first_nonempty last_nonempty is_empty].
    by destruct (last_nonempty (map html_of ps)). }
  split; [exact Hgen|].
  intros p1 p2 params1 params2 b1 b2 -> Hc1 Hc2 Hb1 Hb2.
  assert (forall p params' body, ContentType (Header_of p) = ("text/plain", params', None) ->
            io.ReadAll (Body p) = (body, None) ->
            extractBodyParts p = (body, "")) as Hleaf.
  { intros [hp bp pp] params' body Hc Hb. unfold extractBodyParts.
    rewrite (extract_leaf 0 hp bp pp _ _ Hc eq_refl). simpl.
    unfold read_or_empty. simpl in Hb. by rewrite Hb. }
  assert (extractBodyParts (mkEntity h b (Some [p1; p2])) =
          (if is_empty b1 then b2 else b1, "")) as Htwo.
  { rewrite Hgen. unfold text_of, html_of. simpl.
    rewrite (Hleaf p1 _ _ Hc1 Hb1), (Hleaf p2 _ _ Hc2 Hb2). simpl.
    by destruct b1, b2. }
  split; [exact Htwo|]. split; [intros Hne; rewrite Htwo; by destruct b1|].
  intros data Hdata.
  assert (snd (fst (parseEmail data)) =
          strings.TrimSpace (if is_empty b1 then b2 else b1)) as Hnorm.
  { unfold parseEmail. rewrite Hdata, Htwo. cbn [is_empty negb fst snd].
    by rewrite andb_false_r. }
  split; [exact Hnorm|]. intros Hne Htrim. rewrite Hnorm. by destruct b1.
Qed.

(** C1, as the code has it: a part whose Content-Disposition starts with
    "attachment" and that is not stored as an inline image changes neither
    the text, the html, the image map nor the log, so the message gives the
    same result without it; an attachment whose media type starts with
    "image/" and that has a Content-Id is stored in the image map like any
    inline image, and adds nothing to text or html itself. *)
Theorem C1_attachment_rule `{MapRange} (part : Entity) :
  is_attachment part = true ->
  (is_inline_image part = false ->
     (forall rec w, visit rec w part = w)
     /\ (forall d h b ps1 ps2,
           extractBodyParts_at d (mkEntity h b (Some (ps1 ++ part :: ps2))) =
           extractBodyParts_at d (mkEntity h b (Some (ps1 ++ ps2)))))
  /\ (is_inline_image part = true ->
        forall rec w,
          visit rec w part =
          mkWalk (w_text w) (w_html w) (store_image (w_images w) part) (w_log w)).
Proof.
  intros Hatt.
  assert (is_walked part = false) as Hw.
  { unfold is_walked. unfold is_attachment in Hatt. rewrite Hatt.
    by destruct (Get (Header_of part) "Content-Disposition"). }
  split.
  - intros Hi.
    assert (forall rec w, visit rec w part = w) as Hskip
      by (intros; by apply visit_skipped).
    split; [exact Hskip|]. intros d h b ps1 ps2. simpl.
    destruct (ContentType h) as [[mt params] [err|]]; [done|].
    destruct (strings.HasPrefix mt "multipart/"); [|done].
    by rewrite !fold_left_app; cbn [fold_left]; rewrite Hskip.
  - intros Hi rec w. by apply visit_image.
Qed.

(** ** The log of the rewriting block *)

Section Log.
Context `{MapRange}.

Lemma guarded_call_weaken (d : nat) (c : RewriteCall) :
  guarded_call (S d) c -> guarded_call d c.
Proof. intros (? & ? & ?). unfold guarded_call. repeat split; [lia|done..]. Qed.

Lemma fold_visit_log (rec : Entity -> string * string * list RewriteCall)
    (Q : RewriteCall -> Prop) (ps : list Entity) (w : Walk) :
  Forall (fun p => Forall Q (snd (rec p))) ps ->
  exists extra,
    w_log (fold_left (visit rec) ps w) = w_log w ++ extra /\ Forall Q extra.
Proof.
  intros Hps. revert w. induction Hps as [|p ps Hp _ IH]; intros w.
  - exists []. by rewrite app_nil_r.
  - cbn [fold_left]. destruct (IH (visit rec w p)) as (extra & -> & Hextra).
    destruct (part_rules p) as [Hr|[Hr|[Hr1 Hr2]]].
    + rewrite visit_image by done. by exists extra.
    + rewrite visit_walked by done. cbn [w_log].
      exists (snd (rec p) ++ extra). rewrite <- app_assoc.
      split; [done|]. by apply Forall_app.
    + rewrite visit_skipped by done. by exists extra.
Qed.

Lemma finish_call (d : nat) (w : Walk) :
  (snd (finish d w) = w_log w /\ fst (finish d w) = (w_text w, w_html w))
  \/ (snd (finish d w) = w_log w ++ [mkRewriteCall d (w_html w) (w_images w)]
      /\ fst (finish d w) =
           (w_text w, rewrite_cids (range_of (w_images w)) (w_html w))
      /\ guarded_call d (mkRewriteCall d (w_html w) (w_images w))).
Proof.
  unfold finish. destruct (negb _ && _) eqn:Hg; [right|left; done].
  apply andb_true_iff in Hg as [Hh Hm]. repeat split; simpl; [lia| |].
  - intros E. by rewrite E in Hh.
  - intros E. rewrite E, map_size_empty in Hm. done.
Qed.

(** The log of a call at depth [d]: the calls of deeper levels, then at
    most one of its own. *)
Lemma extract_log_shape (e : Entity) (d : nat) :
  exists deeper own,
    snd (extractBodyParts_at d e) = deeper ++ own
    /\ Forall (guarded_call (S d)) deeper
    /\ (own = []
        \/ exists c, own = [c] /\ call_depth c = d /\ guarded_call d c
             /\ snd (fst (extractBodyParts_at d e)) =
                  rewrite_cids (range_of (call_images c)) (call_html c)).
Proof.
  revert d. induction e as [h b|h b ps IH] using Entity_parts_ind; intros d.
  - exists [], []. split; [|split; [constructor|by left]].
    simpl. destruct (ContentType h) as [[mt params] [err|]]; [done|].
    destruct (strings.HasPrefix mt "multipart/"); [done|].
    repeat (destruct (String.eqb mt _)); by rewrite finish_no_images.
  - simpl. destruct (ContentType h) as [[mt params] [err|]].
    { exists [], []. split; [done|]. split; [constructor|by left]. }
    destruct (strings.HasPrefix mt "multipart/").
    + destruct (fold_visit_log (extractBodyParts_at (S d)) (guarded_call (S d))
                  ps (mkWalk "" "" ∅ [])) as (extra & Hlog & Hextra).
      { eapply Forall_impl; [exact IH|]. intros p Hp.
        destruct (Hp (S d)) as (deeper & own & -> & Hdeeper & Hown).
        apply Forall_app. split.
        - eapply Forall_impl; [exact Hdeeper|]. apply guarded_call_weaken.
        - destruct Hown as [->|(c & -> & _ & Hc & _)]; [constructor|].
          constructor; [exact Hc|constructor]. }
      set (w := fold_left _ ps _) in *. simpl in Hlog.
      destruct (finish_call d w) as [[Hs Hf]|(Hs & Hf & Hg)].
      * exists extra, []. rewrite Hs, Hlog, app_nil_r. split; [done|]. by split; [|left].
      * exists extra, [mkRewriteCall d (w_html w) (w_images w)].
        rewrite Hs, Hlog. split; [done|]. split; [done|]. right.
        eexists. split; [done|]. split; [done|]. split; [done|]. by rewrite Hf.
    + exists [], []. split; [|split; [constructor|by left]].
      repeat (destruct (String.eqb mt _)); by rewrite finish_no_images.
Qed.

End Log.

(** C3, as the code has it: the rewriting block runs at the end of every
    call of [extractBodyParts], at whatever depth, after the parts of that
    call have been walked, on the image map and the html of that call only,
    when both are non-empty and whenever they are; a call runs it at most
    once, and the html it returns is then the rewritten one. *)
Theorem C3_rewriter_per_level `{MapRange} (e : Entity) (d : nat) :
  let log := snd (extractBodyParts_at d e) in
  Forall (guarded_call d) log
  /\ (forall i c, log !! i = Some c -> call_depth c = d ->
        S i = length log
        /\ snd (fst (extractBodyParts_at d e)) =
             rewrite_cids (range_of (call_images c)) (call_html c))
  /\ (forall h b ps mt params,
        e = mkEntity h b (Some ps) ->
        ContentType h = (mt, params, None) ->
        strings.HasPrefix mt "multipart/" = true ->
        let w := walk_parts d ps walk_start in
        w_html w <> "" -> w_images w <> ∅ ->
        exists deeper,
          log = deeper ++ [mkRewriteCall d (w_html w) (w_images w)]).
Proof.
  cbv zeta. split; [|split].
  - destruct (extract_log_shape e d) as (deeper & own & -> & Hdeeper & Hown).
    apply Forall_app. split.
    + eapply Forall_impl; [exact Hdeeper|]. apply guarded_call_weaken.
    + destruct Hown as [->|(c & -> & _ & Hc & _)]; [constructor|].
      constructor; [exact Hc|constructor].
  - destruct (extract_log_shape e d) as (deeper & own & -> & Hdeeper & Hown).
    intros i c Hi Hd. apply lookup_app_Some in Hi as [Hi|[Hlen Hi]].
    + pose proof (proj1 (Forall_lookup _ _) Hdeeper i c Hi) as (Hle & _). lia.
    + destruct Hown as [->|(c' & -> & _ & _ & Hhtml)]; [done|].
      destruct (i - length deeper) as [|k] eqn:Hk; [|done].
      injection Hi as <-. rewrite length_app. simpl. split; [lia|done].
  - intros h b ps mt params -> Hct Hmt Hh Hm.
    rewrite (extract_multipart d h b ps mt params Hct Hmt).
    set (w := walk_parts d ps walk_start) in *. exists (w_log w).
    unfold finish.
    assert (negb (is_empty (w_html w)) = true) as ->
      by (by destruct (w_html w)).
    assert ((0 <? size (w_images w)) = true) as ->; [|done].
    apply Nat.ltb_lt. destruct (size (w_images w)) eqn:Hs; [|lia].
    by apply map_size_empty_iff in Hs.
Qed.

(** ** Prefixes, occurrences and [strings.ReplaceAll] *)

Lemma HasPrefix_nil (s : string) : strings.HasPrefix s "" = true.
Proof. by destruct s. Qed.

Lemma HasPrefix_cons (c d : ascii) (s p : string) :
  strings.HasPrefix (String c s) (String d p) =
  Ascii.eqb c d && strings.HasPrefix s p.
Proof. reflexivity. Qed.

Lemma HasPrefix_spec (s p : string) :
  strings.HasPrefix s p = true <-> exists t, s = p +:+ t.
Proof.
  revert s. induction p as [|d p IH]; intros s.
  - split; [by exists s|intros _; apply HasPrefix_nil].
  - destruct s as [|c s].
    + split; [done|]. intros [t Ht]. by rewrite sapp_cons in Ht.
    + rewrite HasPrefix_cons, andb_true_iff, Ascii.eqb_eq, IH. split.
      * intros [-> [t ->]]. by exists t.
      * intros [t Ht]. rewrite sapp_cons in Ht. injection Ht as -> ->. eauto.
Qed.

Lemma Contains_cons (c : ascii) (s p : string) :
  strings.Contains (String c s) p =
  strings.HasPrefix (String c s) p || strings.Contains s p.
Proof. reflexivity. Qed.

Lemma Contains_spec (s p : string) :
  strings.Contains s p = true <-> exists a b, s = a +:+ p +:+ b.
Proof.
  induction s as [|c s IH].
  - change (strings.Contains "" p) with (strings.HasPrefix "" p || false).
    rewrite orb_false_r, HasPrefix_spec. split.
    + intros [t Ht]. by exists "", t.
    + intros ([|c a] & b & Hab); [by exists b|by rewrite sapp_cons in Hab].
  - rewrite Contains_cons, orb_true_iff, HasPrefix_spec, IH. split.
    + intros [[t Ht]|(a & b & ->)]; [by exists "", t|by exists (String c a), b].
    + intros ([|c' a] & b & Hab); [left; by exists b|right].
      rewrite sapp_cons in Hab. injection Hab as -> ->. by exists a, b.
Qed.

Lemma Contains_of_HasPrefix (s p : string) :
  strings.HasPrefix s p = true -> strings.Contains s p = true.
Proof. destruct s; simpl; intros ->; done. Qed.

Lemma Contains_infix (a s b p : string) :
  strings.Contains s p = true -> strings.Contains (a +:+ s +:+ b) p = true.
Proof.
  rewrite !Contains_spec. intros (x & y & ->).
  exists (a +:+ x), (y +:+ b). by rewrite !sapp_assoc.
Qed.

Lemma len_slice_from (k : nat) (s : string) : len (slice_from k s) = len s - k.
Proof. revert s. induction k as [|k IH]; intros [|c s]; simpl; auto. Qed.

Lemma slice_from_S (k : nat) (s : string) (d : ascii) (v : string) :
  slice_from k s = String d v -> slice_from (S k) s = v.
Proof.
  revert s. induction k as [|k IH]; intros [|c s]; try done.
  - by intros [= _ ->].
  - intros Hk. change (slice_from (S k) s = v). by apply IH.
Qed.

Lemma slice_from_app (a t : string) : slice_from (len a) (a +:+ t) = t.
Proof. induction a as [|c a IH]; [by destruct t|]. by rewrite sapp_cons. Qed.

Lemma slice_split (k : nat) (s : string) : s = slice_to k s +:+ slice_from k s.
Proof.
  revert s. induction k as [|k IH]; intros [|c s]; simpl; try done.
  rewrite sapp_cons. by rewrite <- IH.
Qed.

Lemma HasSuffix_spec (s u : string) :
  strings.HasSuffix s u = true <-> exists a, s = a +:+ u.
Proof.
  unfold strings.HasSuffix. rewrite andb_true_iff, Nat.leb_le, String.eqb_eq. split.
  - intros [_ Hu]. exists (slice_to (len s - len u) s).
    rewrite <- Hu at 2. apply slice_split.
  - intros [a ->]. rewrite len_sapp. split; [lia|].
    replace (len a + len u - len u) with (len a) by lia. apply slice_from_app.
Qed.

(** A prefix of [x +:+ y] lies within [x] or runs over into [y]. *)
Lemma HasPrefix_app_cases (x y p : string) :
  strings.HasPrefix (x +:+ y) p = true ->
  strings.HasPrefix x p = true
  \/ (len x < len p /\ slice_to (len x) p = x
      /\ strings.HasPrefix y (slice_from (len x) p) = true).
Proof.
  revert p. induction x as [|c x IH]; intros [|d p] Hp; try (by left).
  - right. simpl. split; [lia|done].
  - rewrite sapp_cons, HasPrefix_cons in Hp.
    apply andb_true_iff in Hp as [Hcd Hp]. apply Ascii.eqb_eq in Hcd as ->.
    destruct (IH p Hp) as [Hx|(Hlen & Hx & Hy)].
    + left. by rewrite HasPrefix_cons, Ascii.eqb_refl.
    + right. simpl. rewrite Hx. split; [lia|done].
Qed.

Lemma HasPrefix_app_comparable (x y v : string) :
  strings.HasPrefix (x +:+ y) v = true ->
  strings.HasPrefix x v = true \/ strings.HasPrefix v x = true.
Proof.
  intros Hv. destruct (HasPrefix_app_cases x y v Hv) as [?|(_ & Hx & _)]; [by left|].
  right. apply HasPrefix_spec. exists (slice_from (len x) v).
  pose proof (slice_split (len x) v) as Hs. by rewrite Hx in Hs.
Qed.

(** An occurrence in [x +:+ y] lies in [x], in [y], or across the seam. *)
Lemma Contains_app_cases (x y p : string) :
  strings.Contains (x +:+ y) p = true ->
  strings.Contains x p = true
  \/ strings.Contains y p = true
  \/ exists k a, 1 <= k < len p /\ x = a +:+ slice_to k p
       /\ strings.HasPrefix y (slice_from k p) = true.
Proof.
  induction x as [|c x IH]; [by right; left|].
  rewrite sapp_cons, Contains_cons. intros [Hp|Hp]%orb_true_iff.
  - rewrite <- sapp_cons in Hp.
    destruct (HasPrefix_app_cases _ _ _ Hp) as [Hx|(Hlen & Hx & Hy)].
    + left. by apply Contains_of_HasPrefix.
    + right; right. exists (len (String c x)), "".
      rewrite Hx. split; [simpl in *; lia|done].
  - destruct (IH Hp) as [Hx|[Hy|(k & a & Hk & -> & Hy)]].
    + left. rewrite Contains_cons, Hx. apply orb_true_r.
    + by right; left.
    + right; right. by exists k, (String c a).
Qed.

Lemma inert_no_occurrence (p new : string) :
  inert p new = true -> strings.Contains new p = false.
Proof.
  unfold inert. rewrite !andb_true_iff, negb_true_iff. by intros [[? _] _].
Qed.

Lemma inert_suffixes (p new : string) (k : nat) :
  inert p new = true -> k < len p ->
  strings.HasPrefix new (slice_from k p) = false
  /\ strings.HasPrefix (slice_from k p) new = false.
Proof.
  unfold inert. rewrite !andb_true_iff. intros [[_ Hs] _] Hk.
  rewrite forallb_forall in Hs. specialize (Hs k).
  rewrite andb_true_iff, !negb_true_iff in Hs. apply Hs, in_seq. lia.
Qed.

Lemma inert_prefixes (p new a : string) (k : nat) :
  inert p new = true -> 1 <= k < len p -> new <> a +:+ slice_to k p.
Proof.
  unfold inert. rewrite !andb_true_iff. intros [_ Hs] Hk Hnew.
  rewrite forallb_forall in Hs. specialize (Hs k).
  rewrite negb_true_iff in Hs.
  assert (strings.HasSuffix new (slice_to k p) = true) as Hsuf
    by (apply HasSuffix_spec; by exists a).
  rewrite Hs in Hsuf; [done|]. apply in_seq. lia.
Qed.

Lemma replace_from_skip (old new : string) (k : nat) (s : string) :
  strings.replace_from old new k s =
  strings.replace_from old new 0 (slice_from k s).
Proof.
  revert k. induction s as [|c s IH]; intros [|k]; try done.
  simpl. rewrite IH. by destruct k, s.
Qed.

Lemma ReplaceAll_nil (old new : string) :
  old <> "" -> strings.ReplaceAll "" old new = "".
Proof. by destruct old. Qed.

Lemma ReplaceAll_match (s old new : string) :
  old <> "" -> strings.HasPrefix s old = true ->
  strings.ReplaceAll s old new =
  new +:+ strings.ReplaceAll (slice_from (len old) s) old new.
Proof.
  intros Hold Hp. destruct old as [|d old]; [done|]. destruct s as [|c s]; [done|].
  unfold strings.ReplaceAll. cbn [is_empty strings.replace_from].
  rewrite Hp, replace_from_skip. simpl. by rewrite Nat.sub_0_r.
Qed.

Lemma ReplaceAll_skip (c : ascii) (s old new : string) :
  old <> "" -> strings.HasPrefix (String c s) old = false ->
  strings.ReplaceAll (String c s) old new = String c (strings.ReplaceAll s old new).
Proof.
  intros Hold Hp. destruct old as [|d old]; [done|].
  unfold strings.ReplaceAll. cbn [is_empty strings.replace_from]. by rewrite Hp.
Qed.

Section Replace.
Variables p old new : string.
Hypothesis Hinert : inert p new = true.
Hypothesis Hold : old <> "".
Hypothesis Hp : p <> "".

(** What the result starts with of an end of [p], the input started with. *)
Lemma replace_prefix_back (n : nat) (s : string) (k : nat) :
  len s <= n ->
  strings.HasPrefix (strings.ReplaceAll s old new) (slice_from k p) = true ->
  strings.HasPrefix s (slice_from k p) = true.
Proof.
  revert s k. induction n as [|n IH]; intros s k Hn Hv.
  { destruct s; [|simpl in Hn; lia]. by rewrite ReplaceAll_nil in Hv. }
  destruct (slice_from k p) as [|d v] eqn:Hk; [apply HasPrefix_nil|].
  assert (k < len p) as Hlt.
  { pose proof (len_slice_from k p) as Hl. rewrite Hk in Hl. simpl in Hl. lia. }
  destruct s as [|c s]; [by rewrite ReplaceAll_nil in Hv|].
  destruct (strings.HasPrefix (String c s) old) eqn:Hm.
  - rewrite ReplaceAll_match in Hv by done.
    destruct (inert_suffixes p new k Hinert Hlt) as [H1 H2]. rewrite Hk in H1, H2.
    destruct (HasPrefix_app_comparable _ _ _ Hv); congruence.
  - rewrite ReplaceAll_skip in Hv by done. rewrite HasPrefix_cons in Hv |- *.
    apply andb_true_iff in Hv as [-> Hv]. simpl.
    rewrite <- (slice_from_S k p d v Hk) in Hv |- *.
    apply IH; [simpl in Hn; lia|done].
Qed.

(** When every occurrence of [p] in [s] starts a match of [old], nothing
    of [p] is left after the replacement. *)
Lemma replace_clears (n : nat) (s : string) :
  len s <= n ->
  (forall a t, s = a +:+ t -> strings.HasPrefix t p = true ->
               strings.HasPrefix t old = true) ->
  strings.Contains (strings.ReplaceAll s old new) p = false.
Proof.
  revert s. induction n as [|n IH]; intros s Hn Hocc.
  { destruct s; [|simpl in Hn; lia]. rewrite ReplaceAll_nil by done.
    by destruct p. }
  destruct s as [|c s]; [rewrite ReplaceAll_nil by done; by destruct p|].
  destruct (strings.HasPrefix (String c s) old) eqn:Hm.
  - rewrite ReplaceAll_match by done.
    set (rest := slice_from (len old) (String c s)).
    assert (strings.Contains (strings.ReplaceAll rest old new) p = false) as Hrest.
    { apply IH.
      - unfold rest. rewrite len_slice_from. destruct old; [done|]. simpl in *. lia.
      - intros a t Ht. apply (Hocc (slice_to (len old) (String c s) +:+ a)).
        rewrite sapp_assoc, <- Ht. apply slice_split. }
    destruct (strings.Contains (new +:+ _) p) eqn:Hc; [exfalso|done].
    destruct (Contains_app_cases _ _ _ Hc) as [Hx|[Hy|(k & a & Hk & Hnew & _)]].
    + by rewrite (inert_no_occurrence _ _ Hinert) in Hx.
    + by rewrite Hrest in Hy.
    + by apply (inert_prefixes p new a k Hinert Hk).
  - rewrite ReplaceAll_skip by done. rewrite Contains_cons.
    rewrite (IH s); [|simpl in Hn; lia|].
    + rewrite orb_false_r. rewrite <- ReplaceAll_skip by done.
      destruct (strings.HasPrefix (strings.ReplaceAll _ _ _) p) eqn:Hh; [exfalso|done].
      assert (strings.HasPrefix (String c s) p = true) as Hsp.
      { apply (replace_prefix_back (S n) (String c s) 0 Hn).
        by destruct p. }
      rewrite (Hocc "" (String c s) eq_refl Hsp) in Hm. done.
    + intros a t ->. apply (Hocc (String c a)). by rewrite sapp_cons.
Qed.

End Replace.

(** Replacing [old] leaves [new] wherever [old] occurred. *)
Lemma ReplaceAll_puts_new (s old new : string) :
  old <> "" -> strings.Contains s old = true ->
  strings.Contains (strings.ReplaceAll s old new) new = true.
Proof.
  intros Hold. induction s as [|c s IH]; intros Hc.
  - simpl in Hc. rewrite orb_false_r in Hc. by destruct old.
  - destruct (strings.HasPrefix (String c s) old) eqn:Hm.
    + rewrite ReplaceAll_match by done. apply Contains_of_HasPrefix, HasPrefix_spec.
      by eexists.
    + rewrite ReplaceAll_skip by done. rewrite Contains_cons in Hc. rewrite Hm in Hc.
      rewrite Contains_cons, (IH Hc). apply orb_true_r.
Qed.

(** ** [strings.TrimSpace] keeps a piece of its argument *)

Lemma TrimLeftSpace_suffix (s : string) : exists a, s = a +:+ strings.TrimLeftSpace s.
Proof.
  remember (len s) as n eqn:Hn. assert (len s <= n) as Hle by lia. clear Hn.
  revert s Hle. induction n as [|n IH]; intros s Hle.
  { destruct s; [by exists ""|simpl in Hle; lia]. }
  destruct s as [|a s1]; [by exists ""|]. simpl in Hle |- *.
  destruct (strings.is_space1 a).
  { destruct (IH s1) as [x Hx]; [lia|]. exists (String a x).
    by rewrite sapp_cons, <- Hx. }
  destruct s1 as [|b s2]; [by exists ""|]. simpl in Hle.
  destruct (strings.is_space2 a b).
  { destruct (IH s2) as [x Hx]; [lia|]. exists (String a (String b x)).
    by rewrite !sapp_cons, <- Hx. }
  destruct s2 as [|c s3]; [by exists ""|]. simpl in Hle.
  destruct (strings.is_space3 a b c); [|by exists ""].
  destruct (IH s3) as [x Hx]; [lia|]. exists (String a (String b (String c x))).
  by rewrite !sapp_cons, <- Hx.
Qed.

Lemma TrimRightSpace_prefix (s : string) : exists b, s = strings.TrimRightSpace s +:+ b.
Proof.
  induction s as [|a s [b IH]]; [by exists ""|].
  cbn [strings.TrimRightSpace]. cbv zeta.
  destruct (strings.is_space_rune _); [by eexists|].
  exists b. by rewrite sapp_cons, <- IH.
Qed.

Lemma TrimSpace_infix (s : string) :
  exists a b, s = a +:+ strings.TrimSpace s +:+ b.
Proof.
  destruct (TrimLeftSpace_suffix s) as [a Ha].
  destruct (TrimRightSpace_prefix (strings.TrimLeftSpace s)) as [b Hb].
  exists a, b. unfold strings.TrimSpace. by rewrite <- Hb.
Qed.

Lemma TrimSpace_no_new_occurrence (s p : string) :
  strings.Contains s p = false -> strings.Contains (strings.TrimSpace s) p = false.
Proof.
  intros Hs. destruct (strings.Contains (strings.TrimSpace s) p) eqn:Ht; [|done].
  destruct (TrimSpace_infix s) as (a & b & Hab).
  apply (Contains_infix a _ b) in Ht. rewrite <- Hab in Ht. congruence.
Qed.

(** ** The Reference Rewriter *)

Lemma cid_nonempty (id : string) : "cid:" +:+ id <> "".
Proof. done. Qed.

Lemma rewrite_cids_preserves (p : string) (entries : list (string * string))
    (html : string) :
  p <> "" ->
  Forall (fun e => inert p e.2 = true) entries ->
  strings.Contains html p = false ->
  strings.Contains (rewrite_cids entries html) p = false.
Proof.
  intros Hp Hall. revert html. induction Hall as [|[id D] entries HD _ IH]; intros html Hc.
  - done.
  - cbn [rewrite_cids fold_left]. apply IH.
    apply (replace_clears p _ D HD (cid_nonempty id) Hp (len html)); [done|].
    intros a t -> Ht. apply Contains_of_HasPrefix in Ht.
    apply (Contains_infix a _ "") in Ht. rewrite sapp_nil_r in Ht. congruence.
Qed.

Lemma rewrite_cids_clears (entries : list (string * string)) (html id D : string) :
  (id, D) ∈ entries ->
  Forall (fun e => inert ("cid:" +:+ id) e.2 = true) entries ->
  strings.Contains (rewrite_cids entries html) ("cid:" +:+ id) = false.
Proof.
  intros Hin Hall. revert html.
  induction Hall as [|[id' D'] entries HD Hall IH]; intros html.
  - by apply elem_of_nil in Hin.
  - cbn [rewrite_cids fold_left].
    apply elem_of_cons in Hin as [[= <- <-]|Hin]; [|by apply IH].
    apply rewrite_cids_preserves; [apply cid_nonempty|done|].
    by apply (replace_clears _ _ D HD (cid_nonempty id) (cid_nonempty id) (len html)).
Qed.

Lemma collect_images_values (ps : list Entity) (m : gmap string string)
    (id D : string) :
  collect_images ps m !! id = Some D ->
  m !! id = Some D
  \/ exists part pmt pparams perr body,
       part ∈ ps /\ is_inline_image part = true
       /\ ContentType (Header_of part) = (pmt, pparams, perr)
       /\ io.ReadAll (Body part) = (body, None)
       /\ id = strings.Trim (Get (Header_of part) "Content-Id") "<>"
       /\ D = dataURI pmt body.
Proof.
  unfold collect_images. revert m. induction ps as [|p ps IH]; intros m Hm; [by left|].
  cbn [fold_left] in Hm. apply IH in Hm as [Hm|(part & Hpart)].
  - destruct (is_inline_image p) eqn:Hi; [|by left].
    unfold store_image in Hm.
    destruct (ContentType (Header_of p)) as [[pmt pparams] perr] eqn:Hct.
    destruct (io.ReadAll (Body p)) as [body [e|]] eqn:Hb; [by left|].
    apply lookup_insert_Some in Hm as [[<- <-]|[_ Hm]]; [|by left].
    right. exists p, pmt, pparams, perr, body. by repeat split; [left|..].
  - right. exists part. destruct Hpart as (pmt & pparams & perr & body & Hin & Hrest).
    exists pmt, pparams, perr, body. split; [by right|done].
Qed.

(** ** One pass or one entry after the other *)

Lemma substitute_from_skip (E : list (string * string)) (k : nat) (s : string) :
  substitute_from E k s = substitute_from E 0 (slice_from k s).
Proof.
  revert k. induction s as [|c s IH]; intros [|k]; try done.
  cbn [substitute_from slice_from]. rewrite IH. by destruct k, s.
Qed.

Lemma substitute_nomatch (E : list (string * string)) (c : ascii) (s : string) :
  (forall id D, In (id, D) E ->
                strings.HasPrefix (String c s) ("cid:" +:+ id) = false) ->
  substitute_from E 0 (String c s) = String c (substitute_from E 0 s).
Proof.
  intros Hno. cbn [substitute_from].
  destruct (ref_at E (String c s)) as [[id D]|] eqn:Href; [|done].
  apply find_some in Href as [Hin Hp]. cbn [fst] in Hp.
  by rewrite (Hno id D Hin) in Hp.
Qed.

Lemma substitute_nil (s : string) : substitute_from [] 0 s = s.
Proof.
  induction s as [|c s IH]; [done|]. rewrite substitute_nomatch; [by rewrite IH|].
  by intros id D [].
Qed.

Lemma HasPrefix_comparable (s p q : string) :
  strings.HasPrefix s p = true -> strings.HasPrefix s q = true ->
  strings.HasPrefix p q = true \/ strings.HasPrefix q p = true.
Proof.
  intros [t ->]%HasPrefix_spec Hq. by apply (HasPrefix_app_comparable p t q).
Qed.

Lemma apart_tail (e : string * string) (es : list (string * string)) :
  apart (e :: es) -> apart es.
Proof.
  intros (Hnd & HA & HB). split; [|split].
  - rewrite fmap_cons in Hnd. by apply NoDup_cons in Hnd as [_ ?].
  - intros id1 D1 id2 D2 H1 H2. apply (HA id1 D1 id2 D2); by right.
  - intros id1 D1 id2 D2 H1 H2. apply (HB id1 D1 id2 D2); by right.
Qed.

Lemma apart_keys (E : list (string * string)) (id D1 D2 : string) :
  apart E -> In (id, D1) E -> In (id, D2) E -> D1 = D2.
Proof.
  intros (Hnd & _ & _) H1 H2.
  apply list_elem_of_In in H1, H2.
  induction E as [|[id' D'] E IH]; [by apply elem_of_nil in H1|].
  rewrite fmap_cons in Hnd. apply NoDup_cons in Hnd as [Hnotin Hnd].
  apply elem_of_cons in H1 as [[= -> ->]|H1], H2 as [[= <-]|H2]; try done.
  - exfalso. apply Hnotin. apply (list_elem_of_fmap_2 fst) in H2. done.
  - subst. exfalso. apply Hnotin. apply (list_elem_of_fmap_2 fst) in H1. done.
  - by apply IH.
Qed.

Lemma apart_prefix_free (E : list (string * string)) (id1 D1 id2 D2 : string) :
  apart E -> In (id1, D1) E -> In (id2, D2) E -> id1 <> id2 ->
  strings.HasPrefix ("cid:" +:+ id1) ("cid:" +:+ id2) = false.
Proof.
  intros (_ & _ & HB) H1 H2 Hne.
  by destruct (inert_suffixes _ _ 0 (HB id1 D1 id2 D2 H1 H2 Hne)) as [_ ?];
    [simpl; lia|].
Qed.

Lemma ref_at_unique (E : list (string * string)) (s id D : string) :
  apart E -> In (id, D) E -> strings.HasPrefix s ("cid:" +:+ id) = true ->
  ref_at E s = Some (id, D).
Proof.
  intros HE Hin Hp. destruct (ref_at E s) as [[id' D']|] eqn:Href.
  - apply find_some in Href as [Hin' Hp']. cbn [fst] in Hp'.
    destruct (decide (id = id')) as [<-|Hne].
    + by rewrite (apart_keys E id D D' HE Hin Hin').
    + exfalso. destruct (HasPrefix_comparable _ _ _ Hp Hp') as [Hc|Hc].
      * by rewrite (apart_prefix_free E id D id' D') in Hc.
      * by rewrite (apart_prefix_free E id' D' id D) in Hc.
  - pose proof (find_none _ _ Href (id, D) Hin) as Hno. cbn [fst] in Hno.
    by rewrite Hp in Hno.
Qed.

Lemma substitute_match (E : list (string * string)) (s id D : string) :
  apart E -> In (id, D) E -> strings.HasPrefix s ("cid:" +:+ id) = true ->
  substitute_from E 0 s =
  D +:+ substitute_from E 0 (slice_from (len ("cid:" +:+ id)) s).
Proof.
  intros HE Hin Hp. destruct s as [|c s]; [done|].
  cbn [substitute_from]. rewrite (ref_at_unique E _ id D HE Hin Hp).
  by rewrite substitute_from_skip.
Qed.

(** A data-URI that is inert for the references of [E] passes through. *)
Lemma substitute_through_new (E : list (string * string)) (D t : string) :
  (forall id D', In (id, D') E -> inert ("cid:" +:+ id) D = true) ->
  substitute_from E 0 (D +:+ t) = D +:+ substitute_from E 0 t.
Proof.
  intros Hinert.
  assert (forall d a, D = a +:+ d ->
            substitute_from E 0 (d +:+ t) = d +:+ substitute_from E 0 t) as Hd.
  { induction d as [|c d IH]; intros a Ha; [done|].
    rewrite !sapp_cons. rewrite substitute_nomatch.
    - f_equal. apply (IH (a +:+ String c "")). by rewrite sapp_assoc.
    - intros id D' Hin.
      destruct (strings.HasPrefix _ _) eqn:Hp; [exfalso|done].
      rewrite <- sapp_cons in Hp.
      destruct (HasPrefix_app_cases _ _ _ Hp) as [Hx|(Hlen & Hx & _)].
      + apply Contains_of_HasPrefix in Hx. apply (Contains_infix a _ "") in Hx.
        rewrite sapp_nil_r, <- Ha in Hx.
        by rewrite (inert_no_occurrence _ _ (Hinert id D' Hin)) in Hx.
      + apply (inert_prefixes _ _ a (len (String c d)) (Hinert id D' Hin)).
        * simpl in *. lia.
        * by rewrite Hx. }
  by apply (Hd D "").
Qed.

(** A reference that [p] cannot take part in is passed by the replacement
    of [p]. *)
Lemma ReplaceAll_through (q p D s : string) :
  p <> "" -> inert q p = true -> strings.HasPrefix s q = true ->
  strings.ReplaceAll s p D =
  q +:+ strings.ReplaceAll (slice_from (len q) s) p D.
Proof.
  intros Hp Hinert [t ->]%HasPrefix_spec. rewrite slice_from_app.
  assert (forall x a, q = a +:+ x ->
            strings.ReplaceAll (x +:+ t) p D = x +:+ strings.ReplaceAll t p D) as Hx.
  { induction x as [|c x IH]; intros a Ha; [done|].
    rewrite !sapp_cons. rewrite ReplaceAll_skip; [|done|].
    - f_equal. apply (IH (a +:+ String c "")). by rewrite sapp_assoc.
    - destruct (strings.HasPrefix _ _) eqn:Hm; [exfalso|done].
      rewrite <- sapp_cons in Hm.
      assert (slice_from (len a) q = String c x) as Hk
        by (rewrite Ha; apply slice_from_app).
      destruct (inert_suffixes q p (len a) Hinert) as [H1 H2].
      { rewrite Ha, len_sapp. simpl. lia. }
      rewrite Hk in H1, H2.
      destruct (HasPrefix_app_comparable _ _ _ Hm); congruence. }
  by apply (Hx q "").
Qed.

(** Replacing the first entry and substituting the others in one pass is
    substituting them all in one pass. *)
Lemma substitute_step (id D : string) (es : list (string * string)) :
  apart ((id, D) :: es) ->
  forall n s, len s <= n ->
    substitute_from es 0 (strings.ReplaceAll s ("cid:" +:+ id) D) =
    substitute_from ((id, D) :: es) 0 s.
Proof.
  intros HE. pose proof (apart_tail _ _ HE) as Hes.
  pose proof HE as (Hnd & HA & HB).
  assert (forall idq Dq, In (idq, Dq) es -> idq <> id) as Hother.
  { intros idq Dq Hin ->. rewrite fmap_cons in Hnd.
    apply NoDup_cons in Hnd as [Hnotin _]. apply Hnotin.
    apply list_elem_of_In in Hin. by apply (list_elem_of_fmap_2 fst) in Hin. }
  induction n as [|n IH]; intros s Hn.
  { destruct s; [|simpl in Hn; lia]. by rewrite ReplaceAll_nil. }
  destruct s as [|c s]; [by rewrite ReplaceAll_nil|].
  destruct (strings.HasPrefix (String c s) ("cid:" +:+ id)) eqn:Hm.
  - rewrite ReplaceAll_match by done.
    rewrite (substitute_match _ _ id D HE (or_introl eq_refl) Hm).
    rewrite substitute_through_new.
    + f_equal. apply IH. rewrite len_slice_from. simpl in *. lia.
    + intros idq Dq Hin. apply (HA idq Dq id D); [by right|by left].
  - destruct (ref_at es (String c s)) as [[idq Dq]|] eqn:Href.
    + apply find_some in Href as [Hin Hq]. cbn [fst] in Hq.
      rewrite (ReplaceAll_through ("cid:" +:+ idq) _ D _ (cid_nonempty id)); [| |done].
      * rewrite (substitute_match ((id, D) :: es) _ idq Dq HE (or_intror Hin) Hq).
        rewrite (substitute_match es _ idq Dq Hes Hin);
          [|apply HasPrefix_spec; by eexists].
        rewrite slice_from_app. f_equal. apply IH.
        rewrite len_slice_from. simpl in *. lia.
      * apply (HB idq Dq id D); [by right|by left|by apply (Hother idq Dq)].
    + pose proof (find_none _ _ Href) as Hnone.
      rewrite ReplaceAll_skip by done.
      rewrite !substitute_nomatch.
      * f_equal. apply IH. simpl in Hn. lia.
      * intros id' D' [[= <- <-]|Hin]; [done|]. apply (Hnone (id', D') Hin).
      * intros idq Dq Hin.
        destruct (strings.HasPrefix
                    (String c (strings.ReplaceAll s ("cid:" +:+ id) D))
                    ("cid:" +:+ idq)) eqn:Hp; [exfalso|done].
        rewrite <- ReplaceAll_skip in Hp by done.
        apply (replace_prefix_back ("cid:" +:+ idq) ("cid:" +:+ id) D
                 (HA idq Dq id D (or_intror Hin) (or_introl eq_refl))
                 (cid_nonempty id) (S n) (String c s) 0 Hn) in Hp.
        pose proof (Hnone (idq, Dq) Hin) as Hno. cbn [fst] in Hno.
        cbn [slice_from] in Hp. by rewrite Hno in Hp.
Qed.

Lemma rewrite_cids_substitute (E : list (string * string)) (s : string) :
  apart E -> rewrite_cids E s = substitute_from E 0 s.
Proof.
  revert s. induction E as [|[id D] es IH]; intros s HE.
  - by rewrite substitute_nil.
  - cbn [rewrite_cids fold_left].
    change (fold_left _ es ?x) with (rewrite_cids es x).
    rewrite IH by (by eapply apart_tail).
    by apply (substitute_step id D es HE (len s)).
Qed.

Lemma apart_perm (E E' : list (string * string)) :
  E ≡ₚ E' -> apart E -> apart E'.
Proof.
  intros Hperm (Hnd & HA & HB). split; [|split].
  - by rewrite <- Hperm.
  - intros id1 D1 id2 D2 H1%list_elem_of_In H2%list_elem_of_In.
    rewrite <- Hperm in H1, H2. apply (HA id1 D1 id2 D2); by apply list_elem_of_In.
  - intros id1 D1 id2 D2 H1%list_elem_of_In H2%list_elem_of_In.
    rewrite <- Hperm in H1, H2. apply (HB id1 D1 id2 D2); by apply list_elem_of_In.
Qed.

(** The pass does not depend on the order of the entries. *)
Lemma substitute_perm (E E' : list (string * string)) :
  apart E -> E ≡ₚ E' ->
  forall n s, len s <= n -> substitute_from E 0 s = substitute_from E' 0 s.
Proof.
  intros HE Hperm. pose proof (apart_perm _ _ Hperm HE) as HE'.
  induction n as [|n IH]; intros s Hn.
  { destruct s; [done|simpl in Hn; lia]. }
  destruct s as [|c s]; [done|].
  destruct (ref_at E (String c s)) as [[id D]|] eqn:Href.
  - apply find_some in Href as [Hin Hp]. cbn [fst] in Hp.
    assert (In (id, D) E') as Hin'.
    { apply list_elem_of_In. rewrite <- Hperm. by apply list_elem_of_In. }
    rewrite (substitute_match E _ id D HE Hin Hp).
    rewrite (substitute_match E' _ id D HE' Hin' Hp).
    f_equal. apply IH. rewrite len_slice_from. simpl in *. lia.
  - pose proof (find_none _ _ Href) as Hnone.
    rewrite !substitute_nomatch.
    + f_equal. apply IH. simpl in Hn. lia.
    + intros id D Hin. apply (Hnone (id, D)).
      apply list_elem_of_In. rewrite Hperm. by apply list_elem_of_In.
    + intros id D Hin. apply (Hnone (id, D) Hin).
Qed.

Section Resolved.
Context `{Parser} `{MapRange}.

Lemma multipart_html (h : Header) (b : io.Reader) (ps : list Entity)
    (mt : string) (params : list (string * string)) :
  ContentType h = (mt, params, None) ->
  strings.HasPrefix mt "multipart/" = true ->
  let acc := last_nonempty (map html_of (List.filter by_default_rule ps)) in
  let images := collect_images ps ∅ in
  html_of (mkEntity h b (Some ps)) =
  if negb (is_empty acc) && (0 <? size images)
  then rewrite_cids (range_of images) acc else acc.
Proof.
  intros Hct Hmt. cbv zeta. unfold html_of, extractBodyParts.
  rewrite (extract_multipart 0 h b ps mt params Hct Hmt), finish_vars.
  pose proof (walk_parts_vars 0 ps walk_start) as Hv.
  unfold vars in Hv. injection Hv as _ Hh Hm. rewrite Hh, Hm.
  cbn [walk_start w_html w_images last_nonempty is_empty snd].
  by destruct (last_nonempty _).
Qed.

Lemma parseEmail_html (data : string) (entity : Entity) :
  message_Read data = Ok entity ->
  snd (parseEmail data) = strings.TrimSpace (html_of entity).
Proof.
  intros Hr. unfold parseEmail, html_of. rewrite Hr.
  by destruct (extractBodyParts entity) as [text html].
Qed.

End Resolved.



(** ** [parseEmail] *)

Lemma lookup_field_absent (k : string) (fs : list (string * string)) :
  Forall (fun kv => kv.1 <> k) fs -> lookup_field k fs = "".
Proof.
  induction 1 as [|[k' v] fs Hk _ IH]; [done|]. simpl.
  destruct (String.eqb k k') eqn:E; [|done].
  apply String.eqb_eq in E. by subst.
Qed.


(** C7: [parseEmail] copies the html into an empty text, once, after the
    walk: when the walker returns an empty text and a non-empty html the
    returned text equals the returned html; a text/html message has text and
    html both equal to its trimmed body.  The walker itself never does it:
    a text/html entity gives an empty text at any depth, and the text of a
    multipart entity is made of the texts of its parts only. *)
Theorem C7_text_from_html_once `{Parser} `{MapRange} :
  (forall data entity html,
     message_Read data = Ok entity ->
     extractBodyParts entity = ("", html) -> html <> "" ->
     snd (fst (parseEmail data)) = strings.TrimSpace html
     /\ snd (parseEmail data) = strings.TrimSpace html)
  /\ (forall data h b parts params,
        message_Read data = Ok (mkEntity h b parts) ->
        ContentType h = ("text/html", params, None) ->
        snd (parseEmail data) = strings.TrimSpace (read_or_empty b)
        /\ snd (fst (parseEmail data)) = snd (parseEmail data))
  /\ (forall d h b parts params,
        ContentType h = ("text/html", params, None) ->
        extractBodyParts_at d (mkEntity h b parts) = ("", read_or_empty b, []))
  /\ (forall h b ps mt params,
        ContentType h = (mt, params, None) ->
        strings.HasPrefix mt "multipart/" = true ->
        fst (extractBodyParts (mkEntity h b (Some ps))) =
        first_nonempty (map text_of (List.filter by_default_rule ps))).
Proof.
  assert (forall d h b parts params,
            ContentType h = ("text/html", params, None) ->
            extractBodyParts_at d (mkEntity h b parts) = ("", read_or_empty b, []))
    as Hleaf.
  { intros d h b parts params Hct.
    by rewrite (extract_leaf d h b parts _ _ Hct eq_refl). }
  split; [|split; [|split]].
  - intros data entity html Hr He Hne. unfold parseEmail. rewrite Hr, He.
    by destruct html.
  - intros data h b parts params Hr Hct. unfold parseEmail. rewrite Hr.
    unfold extractBodyParts. rewrite (Hleaf 0 h b parts params Hct). simpl.
    by destruct (read_or_empty b).
  - exact Hleaf.
  - intros h b ps mt params Hct Hmt. unfold extractBodyParts.
    rewrite (extract_multipart 0 h b ps mt params Hct Hmt), finish_vars.
    pose proof (walk_parts_vars 0 ps walk_start) as Hv.
    unfold vars in Hv. injection Hv as Ht _ _. by rewrite Ht.
Qed.

(** ** The session *)

Section SessionFacts.
Context `{Unicode} `{Parser} `{MapRange} `{HTTPClient}.

Lemma forwardToAPI_accepts (rcpt subject text html label : string) (c c' : Conn) :
  forwardToAPI rcpt subject text html label c = (None, c') ->
  exists req,
    c' = mkConn (session c) (sent c ++ [req])
    /\ Payload req = mkEmailRequest rcpt subject text html label
    /\ URL req = orchestratorURL (backend (session c)) +:+ "/email/send"
    /\ exists body, client_Do (sent c) req = Ok (mkResponse 200 body).
Proof.
  unfold forwardToAPI, bind, get_session, do_request, ret.
  destruct (NewRequest_error _ _); [done|].
  destruct (client_Do _ _) as [[code body]|e] eqn:Hdo; [|done]. simpl.
  destruct (code =? 200)%Z eqn:Hcode; [|done].
  apply Z.eqb_eq in Hcode as ->. intros [= <-]. eexists. split; [done|].
  split; [done|]. split; [done|]. by exists body.
Qed.

Lemma Data_read_failure (r : io.Reader) (c : Conn) (err : error) :
  snd (io.ReadAll (io.LimitReader r MaxEmailSize)) = Some err ->
  Data r c = (Some err, c).
Proof.
  intros Hr. unfold Data. destruct (io.ReadAll _) as [data [e|]]; [|done].
  simpl in Hr. by injection Hr as ->.
Qed.

Lemma Data_no_recipient (r : io.Reader) (c : Conn) :
  to (session c) = [] -> exists err, Data r c = (Some err, c).
Proof.
  intros Hto. unfold Data. destruct (io.ReadAll _) as [data [e|]]; [by eexists|].
  destruct (parseEmail data) as [[subject text] html].
  unfold bind, get_session. rewrite Hto. by eexists.
Qed.

Lemma Data_delivers (r : io.Reader) (c : Conn) :
  forall data rcpt rest,
    io.ReadAll (io.LimitReader r MaxEmailSize) = (data, None) ->
    to (session c) = rcpt :: rest ->
    Data r c =
    forwardToAPI rcpt (fst (fst (parseEmail data))) (snd (fst (parseEmail data)))
      (snd (parseEmail data)) (label_for (session c)) c.
Proof.
  intros data rcpt rest Hread Hto. unfold Data. rewrite Hread.
  destruct (parseEmail data) as [[subject text] html].
  unfold bind, get_session. by rewrite Hto.
Qed.

Lemma run_rcpts_to (ts : list string) (c : Conn) :
  to (session (run_rcpts ts c)) = to (session c) ++ ts
  /\ sent (run_rcpts ts c) = sent c.
Proof.
  unfold run_rcpts. revert c. induction ts as [|t ts IH]; intros c.
  - by rewrite app_nil_r.
  - cbn [fold_left]. destruct (IH (snd (Rcpt t c))) as [-> ->].
    simpl. by rewrite <- app_assoc.
Qed.

End SessionFacts.

Lemma LimitReader_small (r : io.Reader) :
  (Z.of_nat (len (io.stream r)) < MaxEmailSize)%Z ->
  io.ReadAll (io.LimitReader r MaxEmailSize) = io.ReadAll r.
Proof.
  intros Hlt. unfold io.ReadAll, io.LimitReader. cbn [io.stream io.fault].
  rewrite slice_to_all by lia. by apply Z.ltb_lt in Hlt as ->.
Qed.

Lemma LimitReader_large (r : io.Reader) :
  (MaxEmailSize <= Z.of_nat (len (io.stream r)))%Z ->
  io.ReadAll (io.LimitReader r MaxEmailSize) =
  (slice_to (Z.to_nat MaxEmailSize) (io.stream r), None).
Proof.
  intros Hge. unfold io.ReadAll, io.LimitReader. cbn [io.stream io.fault].
  by apply Z.ltb_ge in Hge as ->.
Qed.

Lemma forwardToAPI_ok `{HTTPClient} (rcpt subject text html label body : string)
    (c : Conn) :
  let url := orchestratorURL (backend (session c)) +:+ "/email/send" in
  let req :=
    mkRequest "POST" url "application/json"
      ("Bearer " +:+ jwtToken (backend (session c)))
      (mkEmailRequest rcpt subject text html label) in
  NewRequest_error "POST" url = None ->
  client_Do (sent c) req = Ok (mkResponse 200 body) ->
  forwardToAPI rcpt subject text html label c =
  (None, mkConn (session c) (sent c ++ [req])).
Proof.
  cbv zeta. intros Hnew Hdo.
  unfold forwardToAPI, bind, get_session, do_request, ret. by rewrite Hnew, Hdo.
Qed.

(** C9: with an empty recipient list [Data] returns an error and does not
    call the API.  When the body is read, a recipient is recorded, the
    request can be built and the API answers 200 to a request for the head
    of the list, [Data] succeeds, with one request, addressed to the head
    of the list.  Whenever [Data] succeeds the list was not empty, exactly
    one request was made and it is addressed to the head of the list, which
    is the first recipient [Rcpt] recorded since the list was last empty,
    however many followed. *)
Theorem C9_first_recipient `{Unicode} `{Parser} `{MapRange} `{HTTPClient} :
  (forall r c, to (session c) = [] -> exists err, Data r c = (Some err, c))
  /\ (forall r c c',
        Data r c = (None, c') ->
        exists rcpt rest req,
          to (session c) = rcpt :: rest
          /\ c' = mkConn (session c) (sent c ++ [req])
          /\ To (Payload req) = rcpt)
  /\ (forall c t ts,
        to (session c) = [] ->
        to (session (run_rcpts (t :: ts) c)) = t :: ts
        /\ forall r c',
             Data r (run_rcpts (t :: ts) c) = (None, c') ->
             exists req, sent c' = sent c ++ [req] /\ To (Payload req) = t)
  /\ (forall r c data rcpt rest,
        io.ReadAll (io.LimitReader r MaxEmailSize) = (data, None) ->
        to (session c) = rcpt :: rest ->
        NewRequest_error "POST"
          (orchestratorURL (backend (session c)) +:+ "/email/send") = None ->
        (forall req,
           To (Payload req) = rcpt ->
           exists body, client_Do (sent c) req = Ok (mkResponse 200 body)) ->
        exists req,
          Data r c = (None, mkConn (session c) (sent c ++ [req]))
          /\ To (Payload req) = rcpt)
  /\ (forall r c data t ts,
        io.ReadAll (io.LimitReader r MaxEmailSize) = (data, None) ->
        to (session c) = [] ->
        NewRequest_error "POST"
          (orchestratorURL (backend (session c)) +:+ "/email/send") = None ->
        (forall req,
           To (Payload req) = t ->
           exists body, client_Do (sent c) req = Ok (mkResponse 200 body)) ->
        exists req,
          Data r (run_rcpts (t :: ts) c) =
          (None,
           mkConn (session (run_rcpts (t :: ts) c)) (sent c ++ [req]))
          /\ To (Payload req) = t).
Proof.
  assert (forall r c c',
            Data r c = (None, c') ->
            exists rcpt rest req,
              to (session c) = rcpt :: rest
              /\ c' = mkConn (session c) (sent c ++ [req])
              /\ To (Payload req) = rcpt) as Hfirst.
  { intros r c c' HD.
    destruct (io.ReadAll (io.LimitReader r MaxEmailSize)) as [data [e|]] eqn:Hread.
    { by rewrite (Data_read_failure r c e) in HD by (by rewrite Hread). }
    destruct (to (session c)) as [|rcpt rest] eqn:Hto.
    { destruct (Data_no_recipient r c Hto) as [err Herr]. congruence. }
    rewrite (Data_delivers r c data rcpt rest Hread Hto) in HD.
    apply forwardToAPI_accepts in HD as (req & -> & Hpay & _).
    exists rcpt, rest, req. by rewrite Hpay. }
  assert (forall r c data rcpt rest,
            io.ReadAll (io.LimitReader r MaxEmailSize) = (data, None) ->
            to (session c) = rcpt :: rest ->
            NewRequest_error "POST"
              (orchestratorURL (backend (session c)) +:+ "/email/send") = None ->
            (forall req,
               To (Payload req) = rcpt ->
               exists body, client_Do (sent c) req = Ok (mkResponse 200 body)) ->
            exists req,
              Data r c = (None, mkConn (session c) (sent c ++ [req]))
              /\ To (Payload req) = rcpt) as Hgoes.
  { intros r c data rcpt rest Hread Hto Hnew Hapi.
    rewrite (Data_delivers r c data rcpt rest Hread Hto).
    set (req := mkRequest "POST"
                  (orchestratorURL (backend (session c)) +:+ "/email/send")
                  "application/json"
                  ("Bearer " +:+ jwtToken (backend (session c)))
                  (mkEmailRequest rcpt (fst (fst (parseEmail data)))
                     (snd (fst (parseEmail data))) (snd (parseEmail data))
                     (label_for (session c)))).
    destruct (Hapi req eq_refl) as [body Hdo]. exists req. split; [|done].
    exact (forwardToAPI_ok _ _ _ _ _ body c Hnew Hdo). }
  split; [apply @Data_no_recipient|]. split; [exact Hfirst|].
  split; [|split; [exact Hgoes|]].
  - intros c t ts Hto.
    destruct (run_rcpts_to (t :: ts) c) as [Hts Hsent]. rewrite Hto in Hts.
    split; [done|]. intros r c' HD.
    apply Hfirst in HD as (rcpt & rest & req & Hr & -> & Hpay).
    exists req. rewrite Hts in Hr. injection Hr as <- _. by rewrite <- Hsent.
  - intros r c data t ts Hread Hto Hnew Hapi.
    destruct (run_rcpts_to (t :: ts) c) as [Hts Hsent]. rewrite Hto in Hts.
    assert (backend (session (run_rcpts (t :: ts) c)) = backend (session c)) as Hb.
    { clear. unfold run_rcpts. generalize (t :: ts). intros l. revert c.
      induction l as [|x l IH]; intros c; [done|]. cbn [fold_left]. by rewrite IH. }
    rewrite <- Hsent.
    apply (Hgoes r (run_rcpts (t :: ts) c) data t ts Hread Hts).
    + by rewrite Hb.
    + by rewrite Hsent.
Qed.

(** What [Data] does with a body of [MaxEmailSize] bytes or more: the
    bytes [io.LimitReader] lets through are the message. *)
Lemma Data_at_limit `{Unicode} `{Parser} `{MapRange} `{HTTPClient}
    (r : io.Reader) (c : Conn) (rcpt : string) (rest : list string) :
  (MaxEmailSize <= Z.of_nat (len (io.stream r)))%Z ->
  to (session c) = rcpt :: rest ->
  let data := slice_to (Z.to_nat MaxEmailSize) (io.stream r) in
  Data r c =
  forwardToAPI rcpt (fst (fst (parseEmail data))) (snd (fst (parseEmail data)))
    (snd (parseEmail data)) (label_for (session c)) c.
Proof.
  intros Hbig Hto. cbv zeta.
  apply (Data_delivers r c _ rcpt rest); [|done]. by apply LimitReader_large.
Qed.

(** C5, as the code has it: when the read of the body fails, which it does
    exactly when the stream breaks before [MaxEmailSize] bytes, [Data]
    returns that error, sends nothing and leaves the connection as it was:
    whatever callbacks follow run as if this [Data] had not been, and after
    the [Reset] of the transport a [Mail], [Rcpt], [Data] sequence goes to
    the delivery of its own message. *)
Theorem C5_read_failure_rejects `{Unicode} `{Parser} `{MapRange} `{HTTPClient}
    (r : io.Reader) (c : Conn) (err : error) :
  io.fault r = Some err ->
  (Z.of_nat (len (io.stream r)) < MaxEmailSize)%Z ->
  (Data r c = (Some err, c)
   /\ forall (A : Type) (next : M A), bind (Data r) (fun _ => next) c = next c)
  /\ (forall sender rcpt r2 data2,
        io.ReadAll (io.LimitReader r2 MaxEmailSize) = (data2, None) ->
        let c1 := snd (Data r c) in
        let c2 := snd (Rcpt rcpt (snd (Mail sender (snd (Reset c1))))) in
        sent c2 = sent c
        /\ to (session c2) = [rcpt]
        /\ Data r2 c2 =
           forwardToAPI rcpt (fst (fst (parseEmail data2)))
             (snd (fst (parseEmail data2))) (snd (parseEmail data2))
             (label_for (session c2)) c2)
  /\ (forall r' e',
        snd (io.ReadAll (io.LimitReader r' MaxEmailSize)) = Some e' <->
        io.fault r' = Some e' /\ (Z.of_nat (len (io.stream r')) < MaxEmailSize)%Z).
Proof.
  intros Hfault Hlt.
  assert (forall r' e',
            snd (io.ReadAll (io.LimitReader r' MaxEmailSize)) = Some e' <->
            io.fault r' = Some e' /\ (Z.of_nat (len (io.stream r')) < MaxEmailSize)%Z)
    as Hfails.
  { intros r' e'. unfold io.ReadAll, io.LimitReader. cbn [io.fault io.stream snd].
    destruct (Z.of_nat (len (io.stream r')) <? MaxEmailSize)%Z eqn:Hcmp.
    - apply Z.ltb_lt in Hcmp. tauto.
    - apply Z.ltb_ge in Hcmp. split; [done|]. intros [_ ?]. lia. }
  assert (Data r c = (Some err, c)) as HD
    by (apply Data_read_failure, Hfails; done).
  split; [split; [done|]|split; [|exact Hfails]].
  - intros A next. unfold bind. by rewrite HD.
  - intros sender rcpt r2 data2 Hread. cbv zeta. rewrite HD.
    split; [done|]. split; [done|].
    by apply (Data_delivers r2 _ data2 rcpt []).
Qed.

(** ** Running the definitions *)

Lemma len_repeat_byte (c : ascii) (n : nat) : len (repeat_byte c n) = n.
Proof. induction n as [|n IH]; [done|]. unfold repeat_byte; fold repeat_byte. simpl. by rewrite IH. Qed.

Lemma len_slice_to_exact (n : nat) (s : string) :
  n <= len s -> len (slice_to n s) = n.
Proof.
  revert s. induction n as [|n IH]; intros [|c s] Hn; simpl in *; try done; try lia.
  rewrite IH; lia.
Qed.

Lemma MaxEmailSize_pos : (0 < MaxEmailSize)%Z.
Proof. reflexivity. Qed.

Lemma parseEmail_failed `{Parser} `{MapRange} (data : string) (err : error) :
  message_Read data = Failed err -> parseEmail data = ("No Subject", data, "").
Proof. intros Hr. unfold parseEmail. by rewrite Hr. Qed.

Section Samples.

#[local] Existing Instance range_listed.
#[local] Existing Instance unicode_unchanged.
#[local] Existing Instance api_accepts.

Lemma C8_sanitizeAppName_rule_witness : sanitizeAppName "_!@ #" = "app".
Proof.
  apply (proj1 (proj2 (proj2 (proj2 (@C8_sanitizeAppName_rule unicode_unchanged))))).
  reflexivity.
Defined.

Lemma C4_first_text_last_html_witness :
  extractBodyParts two_texts = ("first", "")
  /\ snd (fst (@parseEmail (parser_reads two_texts) range_listed "raw")) = "first".
Proof.
  pose proof (proj2 (@C4_first_text_last_html (parser_reads two_texts) range_listed
              (typed_header "multipart/alternative" [("boundary", "b")] [])
              (io.mkReader "" None)
              [leaf_part "text/plain" [] "first"; leaf_part "text/plain" [] "second"]
              "multipart/alternative" [("boundary", "b")] eq_refl eq_refl
              ltac:(repeat constructor))
       _ _ [] [] "first" "second" eq_refl eq_refl eq_refl eq_refl eq_refl)
    as (Htext & _ & Hnorm).
  split; [exact Htext|].
  exact (proj2 (Hnorm "raw" eq_refl) ltac:(discriminate) eq_refl).
Defined.

(** The normalised text is not always the content of the first of two
    text/plain parts: an empty first part gives the content of the second,
    and white space around the first content is trimmed away, to nothing
    when the first part holds white space only. *)
Lemma C4_counterexample :
  snd (fst (@parseEmail
              (parser_reads
                 (multipart "multipart/alternative"
                    [leaf_part "text/plain" [] ""; leaf_part "text/plain" [] "second"]))
              range_listed "raw")) = "second"
  /\ snd (fst (@parseEmail
                 (parser_reads
                    (multipart "multipart/alternative"
                       [leaf_part "text/plain" [] " first ";
                        leaf_part "text/plain" [] "second"]))
                 range_listed "raw")) = "first"
  /\ snd (fst (@parseEmail
                 (parser_reads
                    (multipart "multipart/alternative"
                       [leaf_part "text/plain" [] "  ";
                        leaf_part "text/plain" [] "second"]))
                 range_listed "raw")) = "".
Proof. repeat split; vm_compute; reflexivity. Qed.

Lemma C1_attachment_rule_witness :
  extractBodyParts_at 0 (multipart "multipart/mixed" [html_with_cid; attached_pdf]) =
  extractBodyParts_at 0 (multipart "multipart/mixed" [html_with_cid]).
Proof.
  exact (proj2 (proj1 (C1_attachment_rule attached_pdf eq_refl) eq_refl)
           0 (typed_header "multipart/mixed" [("boundary", "b")] [])
           (io.mkReader "" None) [html_with_cid] []).
Defined.

(** An attached image with a Content-Id is stored in the image map and
    resolves the reference in the html. *)
Lemma C1_counterexample :
  is_attachment attached_png = true
  /\ w_images (visit (extractBodyParts_at 1) walk_start attached_png) !! "img1"
     = Some "data:image/png;base64,YWJj"
  /\ extractBodyParts (multipart "multipart/related" [html_with_cid; attached_png])
     = ("", "<img src=data:image/png;base64,YWJj>")
  /\ extractBodyParts (multipart "multipart/related" [html_with_cid])
     = ("", "<img src=cid:img1>").
Proof. repeat split; vm_compute; reflexivity. Qed.

(** The rewriting block runs in a nested call, at depth 1, where the top
    level has no image of its own. *)
Lemma C3_counterexample :
  map call_depth (rewriter_calls nested_related) = [1]
  /\ map call_html (rewriter_calls nested_related) = ["<img src=cid:img1>"]
  /\ extractBodyParts nested_related = ("", "<img src=data:image/png;base64,YWJj>")
  /\ collect_images
       [multipart "multipart/related" [html_with_cid; inline_png]; attached_pdf] ∅
     = ∅.
Proof. repeat split; vm_compute; reflexivity. Qed.



Lemma C5_read_failure_rejects_witness :
  @Data unicode_unchanged parser_refuses range_listed api_accepts broken one_recipient
  = (Some (errorString "unexpected EOF"), one_recipient).
Proof.
  exact (proj1 (proj1 (@C5_read_failure_rejects unicode_unchanged parser_refuses
                         range_listed api_accepts broken one_recipient
                         (errorString "unexpected EOF") eq_refl eq_refl))).
Defined.

(** A body of [MaxEmailSize] + 1 bytes is accepted and its first
    [MaxEmailSize] bytes are delivered; so is a body the transport cut at
    [MaxEmailSize] bytes with its error for a message that is too large. *)
Lemma C5_counterexample :
  ((MaxEmailSize < Z.of_nat (len (io.stream oversized)))%Z
   /\ exists req,
        @Data unicode_unchanged parser_refuses range_listed api_accepts
          oversized one_recipient
        = (None, mkConn (session one_recipient) [req])
        /\ To (Payload req) = "user@example.com"
        /\ Z.of_nat (len (Text (Payload req))) = MaxEmailSize)
  /\ (snd (io.ReadAll cut_by_transport) = Some ErrDataTooLarge
      /\ exists req,
           @Data unicode_unchanged parser_refuses range_listed api_accepts
             cut_by_transport one_recipient
           = (None, mkConn (session one_recipient) [req])
           /\ To (Payload req) = "user@example.com"
           /\ Z.of_nat (len (Text (Payload req))) = MaxEmailSize).
Proof.
  pose proof MaxEmailSize_pos as Hpos.
  assert (forall r,
            (MaxEmailSize <= Z.of_nat (len (io.stream r)))%Z ->
            exists req,
              @Data unicode_unchanged parser_refuses range_listed api_accepts
                r one_recipient
              = (None, mkConn (session one_recipient) [req])
              /\ To (Payload req) = "user@example.com"
              /\ Z.of_nat (len (Text (Payload req))) = MaxEmailSize) as Hdelivered.
  { intros r Hbig. eexists. split; [|split].
    - rewrite (@Data_at_limit unicode_unchanged parser_refuses range_listed
                 api_accepts r one_recipient "user@example.com" [] Hbig eq_refl).
      rewrite (@parseEmail_failed parser_refuses range_listed _
                 (errorString "malformed") eq_refl).
      cbn [fst snd].
      exact (@forwardToAPI_ok api_accepts _ _ _ _ _ "" one_recipient eq_refl eq_refl).
    - reflexivity.
    - cbn [Text Payload]. rewrite len_slice_to_exact; lia. }
  assert (len (io.stream oversized) = Z.to_nat (MaxEmailSize + 1)) as Hlen
    by apply len_repeat_byte.
  assert (len (io.stream cut_by_transport) = Z.to_nat MaxEmailSize) as Hlen'
    by apply len_repeat_byte.
  split; [split; [rewrite Hlen; lia|]|split; [reflexivity|]].
  - apply Hdelivered. rewrite Hlen. lia.
  - apply Hdelivered. rewrite Hlen'. lia.
Qed.


Lemma C7_text_from_html_once_witness :
  snd (fst (@parseEmail (parser_reads html_only) range_listed "raw")) = "<p>Hi</p>"
  /\ snd (@parseEmail (parser_reads html_only) range_listed "raw") = "<p>Hi</p>".
Proof.
  refine (proj1 (@C7_text_from_html_once (parser_reads html_only) range_listed)
            "raw" html_only " <p>Hi</p> " eq_refl eq_refl _).
  discriminate.
Defined.

Lemma C9_first_recipient_witness :
  to (session (run_rcpts ["a@example.com"; "b@example.com"]
                 (mkConn (NewSession (mkSMTPBackend "token" "https://api.example")) [])))
  = ["a@example.com"; "b@example.com"]
  /\ exists req,
       @Data unicode_unchanged (parser_reads plain_hi) range_listed api_accepts
         (io.mkReader "raw message" None)
         (run_rcpts ["a@example.com"; "b@example.com"]
            (mkConn (NewSession (mkSMTPBackend "token" "https://api.example")) []))
       = (None,
          mkConn
            (session
               (run_rcpts ["a@example.com"; "b@example.com"]
                  (mkConn (NewSession (mkSMTPBackend "token" "https://api.example"))
                     [])))
            [req])
       /\ To (Payload req) = "a@example.com".
Proof.
  pose proof (@C9_first_recipient unicode_unchanged (parser_reads plain_hi)
                range_listed api_accepts) as (_ & _ & Hrcpt & _ & Hdata).
  split.
  - exact (proj1 (Hrcpt
             (mkConn (NewSession (mkSMTPBackend "token" "https://api.example")) [])
             "a@example.com" ["b@example.com"] eq_refl)).
  - apply (Hdata (io.mkReader "raw message" None)
             (mkConn (NewSession (mkSMTPBackend "token" "https://api.example")) [])
             "raw message" "a@example.com" ["b@example.com"]).
    + by rewrite LimitReader_small.
    + reflexivity.
    + reflexivity.
    + intros req _. by exists "".
Defined.

(** A plain message with subject "Hi" and body "Hello", sent by
    vaultwarden@example.com to two recipients, is delivered to the first. *)
Example plain_message_delivered :
  let c0 := mkConn (NewSession (mkSMTPBackend "token" "https://api.example")) [] in
  let c1 := snd (Mail "vaultwarden@example.com" c0) in
  let c2 := run_rcpts ["a@example.com"; "b@example.com"] c1 in
  @Data unicode_unchanged (parser_reads plain_hi) range_listed api_accepts
    (io.mkReader "raw message" None) c2
  = (None,
     mkConn (session c2)
       [mkRequest "POST" "https://api.example/email/send" "application/json"
          "Bearer token"
          (mkEmailRequest "a@example.com" "Hi" "Hello" "" "vaultwarden")]).
Proof.
  cbv zeta.
  rewrite (@Data_delivers unicode_unchanged (parser_reads plain_hi) range_listed
             api_accepts _ _ "raw message" "a@example.com" ["b@example.com"]);
    [|by rewrite LimitReader_small|done].
  reflexivity.
Qed.

End Samples.

(** * Further properties of the code *)

(** ** [forwardToAPI] and [Data], case by case *)

Section Delivery.
Context `{Unicode} `{Parser} `{MapRange} `{HTTPClient}.

Lemma forwardToAPI_cases (rcpt subject text html label : string) (c : Conn) :
  let url := orchestratorURL (backend (session c)) +:+ "/email/send" in
  let req :=
    mkRequest "POST" url "application/json"
      ("Bearer " +:+ jwtToken (backend (session c)))
      (mkEmailRequest rcpt subject text html label) in
  forwardToAPI rcpt subject text html label c =
  match NewRequest_error "POST" url with
  | Some e => (Some (wrapError "failed to create HTTP request" e), c)
  | None =>
      match client_Do (sent c) req with
      | Failed e =>
          (Some (wrapError "failed to send HTTP request" e),
           mkConn (session c) (sent c ++ [req]))
      | Ok resp =>
          (if (StatusCode resp =? 200)%Z then None
           else Some (statusError (StatusCode resp) (ResponseBody resp)),
           mkConn (session c) (sent c ++ [req]))
      end
  end.
Proof.
  cbv zeta. unfold forwardToAPI, bind, get_session, do_request, ret.
  destruct (NewRequest_error _ _); [done|].
  destruct (client_Do _ _) as [resp|e]; [|done].
  by destruct (StatusCode resp =? 200)%Z.
Qed.

Lemma Data_cases (r : io.Reader) (c : Conn) :
  Data r c =
  match io.ReadAll (io.LimitReader r MaxEmailSize) with
  | (_, Some err) => (Some err, c)
  | (data, None) =>
      match to (session c) with
      | [] => (Some (errorString "no recipients specified"), c)
      | rcpt :: _ =>
          forwardToAPI rcpt (fst (fst (parseEmail data)))
            (snd (fst (parseEmail data))) (snd (parseEmail data))
            (label_for (session c)) c
      end
  end.
Proof.
  unfold Data. destruct (io.ReadAll _) as [data [e|]]; [done|].
  destruct (parseEmail data) as [[subject text] html].
  unfold bind, get_session. by destruct (to (session c)).
Qed.

End Delivery.

(** X1: [Data] returns nil exactly when the read of the body succeeds, a
    recipient is recorded, the request can be built and the API answers
    200; the one request it sends then carries the first recipient, the
    subject, text and html of [parseEmail] on the bytes read, and the label
    of the session.  A message that does not parse is no reason to fail. *)
Theorem Data_accepts_iff `{Unicode} `{Parser} `{MapRange} `{HTTPClient}
    (r : io.Reader) (c c' : Conn) :
  Data r c = (None, c') <->
  exists data rcpt rest body,
    io.ReadAll (io.LimitReader r MaxEmailSize) = (data, None)
    /\ to (session c) = rcpt :: rest
    /\ let url := orchestratorURL (backend (session c)) +:+ "/email/send" in
       let req :=
         mkRequest "POST" url "application/json"
           ("Bearer " +:+ jwtToken (backend (session c)))
           (mkEmailRequest rcpt (fst (fst (parseEmail data)))
              (snd (fst (parseEmail data))) (snd (parseEmail data))
              (label_for (session c))) in
       NewRequest_error "POST" url = None
       /\ client_Do (sent c) req = Ok (mkResponse 200 body)
       /\ c' = mkConn (session c) (sent c ++ [req]).
Proof.
  rewrite Data_cases. cbv zeta.
  destruct (io.ReadAll (io.LimitReader r MaxEmailSize)) as [data [e|]] eqn:Hread.
  { split; [done|]. by intros (? & ? & ? & ? & [= _ ?] & _). }
  destruct (to (session c)) as [|rcpt rest] eqn:Hto.
  { split; [done|]. by intros (? & ? & ? & ? & _ & ? & _). }
  pose proof (forwardToAPI_cases rcpt (fst (fst (parseEmail data)))
                (snd (fst (parseEmail data))) (snd (parseEmail data))
                (label_for (session c)) c) as Hf.
  cbv zeta in Hf. rewrite Hf. clear Hf. split.
  - intros HD. exists data, rcpt, rest.
    destruct (NewRequest_error _ _) as [e|]; [done|].
    destruct (client_Do _ _) as [[code body]|e]; [|done].
    cbn [StatusCode ResponseBody] in HD.
    destruct (code =? 200)%Z eqn:Hc; [|done].
    apply Z.eqb_eq in Hc as ->. injection HD as <-. by exists body.
  - intros (data' & rcpt' & rest' & body & [= <-] & [= <- <-] & -> & -> & ->).
    done.
Qed.

(** X2: whatever [Data] returns, it leaves the session as it was and calls
    [client.Do] at most once.  It fails in five ways only: the read error,
    before anything else; "no recipients specified"; the request that
    cannot be built; the exchange that fails; the status that is not 200.
    In the first three [client.Do] is not called.  In the last two it has
    been called with the request: the API answered it with another status,
    or [client.Do] returned an error, before or after the request left. *)
Theorem Data_outcomes `{Unicode} `{Parser} `{MapRange} `{HTTPClient}
    (r : io.Reader) (c : Conn) :
  session (snd (Data r c)) = session c
  /\ match fst (Data r c) with
     | None => exists req, snd (Data r c) = mkConn (session c) (sent c ++ [req])
     | Some err =>
         (snd (io.ReadAll (io.LimitReader r MaxEmailSize)) = Some err
          /\ snd (Data r c) = c)
         \/ (snd (io.ReadAll (io.LimitReader r MaxEmailSize)) = None
             /\ to (session c) = []
             /\ err = errorString "no recipients specified"
             /\ snd (Data r c) = c)
         \/ (exists e,
               err = wrapError "failed to create HTTP request" e
               /\ snd (Data r c) = c)
         \/ (exists e req,
               err = wrapError "failed to send HTTP request" e
               /\ client_Do (sent c) req = Failed e
               /\ snd (Data r c) = mkConn (session c) (sent c ++ [req]))
         \/ (exists code body req,
               err = statusError code body /\ code <> 200%Z
               /\ client_Do (sent c) req = Ok (mkResponse code body)
               /\ snd (Data r c) = mkConn (session c) (sent c ++ [req]))
     end.
Proof.
  rewrite Data_cases.
  destruct (io.ReadAll (io.LimitReader r MaxEmailSize)) as [data [e|]] eqn:Hread.
  { split; [done|]. by left. }
  destruct (to (session c)) as [|rcpt rest] eqn:Hto.
  { split; [done|]. right; left. done. }
  pose proof (forwardToAPI_cases rcpt (fst (fst (parseEmail data)))
                (snd (fst (parseEmail data))) (snd (parseEmail data))
                (label_for (session c)) c) as Hf.
  cbv zeta in Hf. rewrite Hf. clear Hf.
  destruct (NewRequest_error _ _) as [e|].
  { split; [done|]. right; right; left. by exists e. }
  destruct (client_Do _ _) as [[code body]|e] eqn:Hdo.
  - cbn [StatusCode ResponseBody fst snd].
    destruct (code =? 200)%Z eqn:Hc.
    + split; [done|]. by eexists.
    + apply Z.eqb_neq in Hc. split; [done|]. do 4 right.
      exists code, body. by eexists.
  - split; [done|]. do 3 right. left. exists e. by eexists.
Qed.

(** ** Sessions over many callbacks *)

Lemma valid_label_app : valid_label "app".
Proof. repeat split; [done|simpl; lia]. Qed.

Lemma sanitizeAppName_valid `{Unicode} (name : string) :
  valid_label (sanitizeAppName name).
Proof.
  rewrite sanitizeAppName_spec.
  pose proof (label_of_spec_len name) as [Hlo Hhi].
  split; [|split; [done|apply label_of_spec_allowed]].
  intros E. rewrite E in Hlo. simpl in Hlo. lia.
Qed.

Lemma label_for_authenticated `{Unicode} (s : SMTPSession) :
  appName s <> "" -> label_for s = appName s.
Proof. unfold label_for. by destruct (appName s). Qed.

Lemma label_for_valid `{Unicode} (s : SMTPSession) :
  appName s = "" \/ valid_label (appName s) -> valid_label (label_for s).
Proof.
  intros [Ha|Ha].
  - unfold label_for. rewrite Ha. cbn [is_empty].
    destruct (negb (is_empty (from s))); [|apply valid_label_app].
    destruct (strings.Split (from s) "@") as [|part0 parts]; [apply valid_label_app|].
    pose proof (sanitizeAppName_valid part0) as Hv.
    destruct (sanitizeAppName part0) eqn:E; [by destruct Hv|done].
  - rewrite label_for_authenticated; [done|]. by destruct Ha.
Qed.

Lemma parseEmail_subject_nonempty `{Parser} `{MapRange} (data : string) :
  fst (fst (parseEmail data)) <> "".
Proof.
  unfold parseEmail. destruct (message_Read data) as [entity|e]; [|done].
  destruct (extractBodyParts entity) as [text html].
  by destruct (Get (Header_of entity) "Subject").
Qed.

Section Sessions.
Context `{Unicode} `{Parser} `{MapRange} `{HTTPClient}.

(** What a request of [Data] looks like. *)
Lemma Data_sent (r : io.Reader) (c : Conn) :
  session (snd (Data r c)) = session c
  /\ (sent (snd (Data r c)) = sent c
      \/ exists data rcpt rest,
           to (session c) = rcpt :: rest
           /\ sent (snd (Data r c)) =
              sent c ++
              [mkRequest "POST"
                 (orchestratorURL (backend (session c)) +:+ "/email/send")
                 "application/json"
                 ("Bearer " +:+ jwtToken (backend (session c)))
                 (mkEmailRequest rcpt (fst (fst (parseEmail data)))
                    (snd (fst (parseEmail data))) (snd (parseEmail data))
                    (label_for (session c)))]).
Proof.
  rewrite Data_cases.
  destruct (io.ReadAll (io.LimitReader r MaxEmailSize)) as [data [e|]];
    [by split; [|left]|].
  destruct (to (session c)) as [|rcpt rest] eqn:Hto; [by split; [|left]|].
  pose proof (forwardToAPI_cases rcpt (fst (fst (parseEmail data)))
                (snd (fst (parseEmail data))) (snd (parseEmail data))
                (label_for (session c)) c) as Hf.
  cbv zeta in Hf. rewrite Hf. clear Hf.
  destruct (NewRequest_error _ _); [by split; [|left]|].
  destruct (client_Do _ _); (split; [done|]); right; by exists data, rcpt, rest.
Qed.

Lemma Data_accepted (r : io.Reader) (c c' : Conn) :
  Data r c = (None, c') ->
  exists rcpt rest req,
    to (session c) = rcpt :: rest
    /\ c' = mkConn (session c) (sent c ++ [req])
    /\ To (Payload req) = rcpt
    /\ AppName (Payload req) = label_for (session c).
Proof.
  rewrite Data_cases.
  destruct (io.ReadAll (io.LimitReader r MaxEmailSize)) as [data [e|]]; [done|].
  destruct (to (session c)) as [|rcpt rest] eqn:Hto; [done|].
  pose proof (forwardToAPI_cases rcpt (fst (fst (parseEmail data)))
                (snd (fst (parseEmail data))) (snd (parseEmail data))
                (label_for (session c)) c) as Hf.
  cbv zeta in Hf. rewrite Hf. clear Hf.
  destruct (NewRequest_error _ _); [done|].
  destruct (client_Do _ _) as [resp|e]; [|done].
  destruct (StatusCode resp =? 200)%Z; [|done].
  intros [= <-]. exists rcpt, rest. by eexists.
Qed.

Lemma run_callback_kept (b : SMTPBackend) (cb : Callback) (c : Conn) :
  session_kept b c -> session_kept b (run_callback cb c).
Proof.
  intros (Hb & Hl & Hs). destruct cb; cbn [run_callback]; try done.
  - repeat split; [done| |done]. right. apply sanitizeAppName_valid.
  - destruct (Data_sent r c) as [Hsess Hsent].
    unfold session_kept. rewrite Hsess. split; [done|]. split; [done|].
    destruct Hsent as [->|(data & rcpt & rest & _ & ->)]; [done|].
    apply Forall_app. split; [done|]. constructor; [|constructor].
    cbn [Payload AppName Subject]. split; [by rewrite Hb|]. split.
    + by apply label_for_valid.
    + apply parseEmail_subject_nonempty.
Qed.

Lemma run_callbacks_kept (b : SMTPBackend) (cbs : list Callback) (c : Conn) :
  session_kept b c -> session_kept b (run_callbacks cbs c).
Proof.
  unfold run_callbacks. revert c. induction cbs as [|cb cbs IH]; intros c Hc; [done|].
  cbn [fold_left]. by apply IH, run_callback_kept.
Qed.

Lemma NewSession_kept (b : SMTPBackend) : session_kept b (mkConn (NewSession b) []).
Proof. repeat split; [by left|constructor]. Qed.

End Sessions.

(** X3: in a session started by [NewSession] and driven by any sequence of
    callbacks, the backend stays the one it was created with, the stored
    label is empty or a label [sanitizeAppName] made, and every request
    that ever went out is a POST to <orchestratorURL>/email/send with the
    JSON content type and the bearer token, carries a label that is not
    empty, at most 20 characters long and made of [a-z0-9-], and a subject
    that is not empty. *)
Theorem session_requests_well_formed `{Unicode} `{Parser} `{MapRange}
    `{HTTPClient} (b : SMTPBackend) (cbs : list Callback) :
  session_kept b (run_callbacks cbs (mkConn (NewSession b) [])).
Proof.
  assert (session_kept b (mkConn (NewSession b) [])) as Hstart.
  { repeat split; [by left|constructor]. }
  revert Hstart. generalize (mkConn (NewSession b) []).
  unfold run_callbacks. induction cbs as [|cb cbs IH]; intros c Hc; [done|].
  cbn [fold_left]. by apply IH, run_callback_kept.
Qed.

Section Labels.
Context `{Unicode} `{Parser} `{MapRange} `{HTTPClient}.

Lemma run_callback_label (cb : Callback) (c : Conn) :
  is_auth cb = false ->
  appName (session (run_callback cb c)) = appName (session c)
  /\ authUser (session (run_callback cb c)) = authUser (session c).
Proof.
  destruct cb; cbn [run_callback is_auth]; try done.
  intros _. by destruct (Data_sent r c) as [-> _].
Qed.

Lemma run_callbacks_label (cbs : list Callback) (c : Conn) :
  forallb (fun cb => negb (is_auth cb)) cbs = true ->
  appName (session (run_callbacks cbs c)) = appName (session c)
  /\ authUser (session (run_callbacks cbs c)) = authUser (session c).
Proof.
  unfold run_callbacks. revert c. induction cbs as [|cb cbs IH]; intros c Hcbs; [done|].
  cbn [forallb] in Hcbs. apply andb_true_iff in Hcbs as [Hcb%negb_true_iff Hcbs].
  cbn [fold_left]. destruct (IH (run_callback cb c) Hcbs) as [-> ->].
  by apply run_callback_label.
Qed.

End Labels.

(** X4: once [Auth] has run with a user name, the label of the session is
    [sanitizeAppName] of that name, whatever the identity and the password,
    and it stays so over any callbacks that are not another [Auth]: [Mail],
    [Rcpt], [Data], [Reset] and [Logout] keep it, and no envelope sender
    replaces it.  Every message [Data] then delivers carries that label. *)
Theorem authenticated_label_kept `{Unicode} `{Parser} `{MapRange} `{HTTPClient}
    (identity username password : string) (cbs : list Callback) (c : Conn) :
  forallb (fun cb => negb (is_auth cb)) cbs = true ->
  let c1 := run_callbacks cbs (snd (Auth identity username password c)) in
  appName (session c1) = sanitizeAppName username
  /\ authUser (session c1) = username
  /\ label_for (session c1) = sanitizeAppName username
  /\ forall r c2,
       Data r c1 = (None, c2) ->
       exists req,
         sent c2 = sent c1 ++ [req]
         /\ AppName (Payload req) = sanitizeAppName username.
Proof.
  intros Hcbs. cbv zeta.
  destruct (run_callbacks_label cbs (snd (Auth identity username password c)) Hcbs)
    as [Ha Hu].
  set (c1 := run_callbacks cbs _) in *. cbn in Ha, Hu.
  assert (label_for (session c1) = sanitizeAppName username) as Hl.
  { rewrite label_for_authenticated; [done|]. rewrite Ha.
    apply sanitizeAppName_valid. }
  repeat split; [done..|].
  intros r c2 (rcpt & rest & req & _ & -> & _ & Hreq)%Data_accepted.
  exists req. by rewrite Hreq.
Qed.

(** ** The label from the envelope sender *)

Lemma rev_app_rev_app (s t u : string) :
  String.rev_app (String.rev_app s t) u = String.rev_app t (s +:+ u).
Proof.
  revert t u. induction s as [|c s IH]; intros t u; [done|].
  cbn [String.rev_app]. by rewrite IH.
Qed.

Lemma rev_rev_app (s : string) : String.rev (String.rev_app s "") = s.
Proof. unfold String.rev. rewrite rev_app_rev_app. apply sapp_nil_r. Qed.

Lemma split_from_no_at (cur s : string) :
  str_forall (fun c => negb (Ascii.eqb c "@")) s = true ->
  strings.split_from "@" 0 cur s = [String.rev (String.rev_app s cur)].
Proof.
  revert cur. induction s as [|c s IH]; intros cur Hs; [done|].
  cbn [str_forall] in Hs. apply andb_true_iff in Hs as [Hc%negb_true_iff Hs].
  cbn [strings.split_from strings.HasPrefix]. rewrite Hc. cbn [andb].
  by rewrite IH.
Qed.

Lemma split_from_at (cur local rest : string) :
  str_forall (fun c => negb (Ascii.eqb c "@")) local = true ->
  strings.split_from "@" 0 cur (local +:+ "@" +:+ rest) =
  String.rev (String.rev_app local cur) :: strings.split_from "@" 0 "" rest.
Proof.
  revert cur. induction local as [|c local IH]; intros cur Hs.
  - rewrite sapp_nil_l, sapp_cons, sapp_nil_l.
    cbn [strings.split_from strings.HasPrefix]. by rewrite HasPrefix_nil.
  - cbn [str_forall] in Hs. apply andb_true_iff in Hs as [Hc%negb_true_iff Hs].
    rewrite sapp_cons. cbn [strings.split_from strings.HasPrefix].
    rewrite Hc. cbn [andb]. by rewrite IH.
Qed.

(** X5: in a session without an authenticated label, [Data] takes the label
    from the envelope sender: what stands before the first "@",
    sanitised; the whole sender when it has no "@"; and "app" when the
    sender is empty.  The domain of the sender plays no part. *)
Theorem label_from_sender `{Unicode} (s : SMTPSession) :
  appName s = "" ->
  (from s = "" -> label_for s = "app")
  /\ (str_forall (fun c => negb (Ascii.eqb c "@")) (from s) = true ->
      label_for s = sanitizeAppName (from s))
  /\ (forall local domain,
        from s = local +:+ "@" +:+ domain ->
        str_forall (fun c => negb (Ascii.eqb c "@")) local = true ->
        label_for s = sanitizeAppName local).
Proof.
  intros Ha. unfold label_for. rewrite Ha. cbn [is_empty].
  assert (forall name, (if is_empty (sanitizeAppName name) then "app"
                        else sanitizeAppName name) = sanitizeAppName name) as Hne.
  { intros name. pose proof (sanitizeAppName_valid name) as [Hv _].
    by destruct (sanitizeAppName name). }
  split; [by intros ->|]. split.
  - intros Hs. destruct (from s) as [|c f] eqn:Hf; [reflexivity|].
    cbn [is_empty negb]. unfold strings.Split.
    rewrite split_from_no_at by done. by rewrite rev_rev_app, Hne.
  - intros local domain -> Hl.
    assert (is_empty (local +:+ "@" +:+ domain) = false) as -> by (by destruct local).
    cbn [negb]. unfold strings.Split.
    rewrite split_from_at by done. by rewrite rev_rev_app, Hne.
Qed.

(** X6: [Data] never clears the recipients.  When a message has been
    delivered and the transport does not call [Reset], a recipient added
    afterwards joins the old list, and the next message that [Data]
    delivers goes once more to the first recipient of the old list. *)
Theorem recipients_outlive_Data `{Unicode} `{Parser} `{MapRange} `{HTTPClient}
    (r1 r2 : io.Reader) (c c1 c2 : Conn) (rcpt2 : string) :
  Data r1 c = (None, c1) ->
  Data r2 (snd (Rcpt rcpt2 c1)) = (None, c2) ->
  exists rcpt rest req1 req2,
    to (session c) = rcpt :: rest
    /\ to (session c2) = rcpt :: rest ++ [rcpt2]
    /\ sent c2 = sent c ++ [req1; req2]
    /\ To (Payload req1) = rcpt
    /\ To (Payload req2) = rcpt.
Proof.
  intros (rcpt & rest & req1 & Hto & -> & Hreq1 & _)%Data_accepted.
  intros (rcpt' & rest' & req2 & Hto' & -> & Hreq2 & _)%Data_accepted.
  cbn in Hto'. rewrite Hto in Hto'. injection Hto' as <- <-.
  exists rcpt, rest, req1, req2. cbn. rewrite Hto, <- app_assoc. done.
Qed.

(** ** Where the text and the html come from *)

Lemma dataURI_nonempty (mt body : string) : dataURI mt body <> "".
Proof. done. Qed.

Lemma ReplaceAll_nonempty (s old new : string) :
  old <> "" -> new <> "" -> s <> "" -> strings.ReplaceAll s old new <> "".
Proof.
  intros Hold Hnew Hs. destruct s as [|c s]; [done|].
  destruct (strings.HasPrefix (String c s) old) eqn:Hm.
  - rewrite ReplaceAll_match by done. by destruct new.
  - by rewrite ReplaceAll_skip.
Qed.

Lemma rewrite_cids_nonempty (entries : list (string * string)) (html : string) :
  Forall (fun e => e.2 <> "") entries -> html <> "" ->
  rewrite_cids entries html <> "".
Proof.
  intros Hall. revert html.
  induction Hall as [|[id D] entries HD _ IH]; intros html Hh; [done|].
  cbn [rewrite_cids fold_left]. apply IH.
  apply ReplaceAll_nonempty; [apply cid_nonempty|done..].
Qed.

Lemma images_nonempty `{MapRange} (ps : list Entity) :
  Forall (fun e => e.2 <> "") (range_of (collect_images ps ∅)).
Proof.
  apply Forall_forall. intros [id D] Hin.
  rewrite range_of_perm in Hin. apply elem_of_map_to_list in Hin.
  apply collect_images_values in Hin
    as [Hin|(part & pmt & pparams & perr & body & _ & _ & _ & _ & _ & ->)].
  - by rewrite lookup_empty in Hin.
  - apply dataURI_nonempty.
Qed.

Lemma last_nonempty_nonempty (l : list string) :
  last_nonempty l <> "" <-> exists s, In s l /\ s <> "".
Proof.
  induction l as [|s l IH].
  - split; [done|]. by intros (s & [] & _).
  - cbn [last_nonempty]. cbv zeta. destruct (last_nonempty l) eqn:E.
    + cbn [is_empty]. split.
      * intros Hs. exists s. by split; [left|].
      * intros (s' & [<-|Hin] & Hs'); [done|].
        exfalso. apply (proj2 IH); [|done]. by exists s'.
    + cbn [is_empty]. split; [|done]. intros _.
      destruct (proj1 IH) as (s' & Hin & Hs'); [done|].
      exists s'. by split; [right|].
Qed.

Lemma first_nonempty_nonempty (l : list string) :
  first_nonempty l <> "" <-> exists s, In s l /\ s <> "".
Proof.
  induction l as [|s l IH].
  - split; [done|]. by intros (s & [] & _).
  - cbn [first_nonempty]. destruct s as [|c s].
    + cbn [is_empty]. rewrite IH. split.
      * intros (s' & Hin & Hs'). exists s'. by split; [right|].
      * intros (s' & [<-|Hin] & Hs'); [done|]. by exists s'.
    + cbn [is_empty]. split; [|done]. intros _. exists (String c s). by split; [left|].
Qed.

Section Provenance.
Context `{MapRange}.

Lemma html_of_cases (h : Header) (b : io.Reader) (parts : option (list Entity)) :
  html_of (mkEntity h b parts) =
  match ContentType h with
  | (_, _, Some _) => ""
  | (mt, _, None) =>
      if strings.HasPrefix mt "multipart/" then
        match parts with
        | None => ""
        | Some ps =>
            if negb (is_empty (last_nonempty (map html_of (List.filter by_default_rule ps))))
               && (0 <? size (collect_images ps ∅))
            then rewrite_cids (range_of (collect_images ps ∅))
                   (last_nonempty (map html_of (List.filter by_default_rule ps)))
            else last_nonempty (map html_of (List.filter by_default_rule ps))
        end
      else if String.eqb mt "text/html" then read_or_empty b else ""
  end.
Proof.
  destruct (ContentType h) as [[mt params] [err|]] eqn:Hct.
  { unfold html_of, extractBodyParts. simpl. by rewrite Hct. }
  destruct (strings.HasPrefix mt "multipart/") eqn:Hmt.
  - destruct parts as [ps|].
    + by rewrite (multipart_html h b ps mt params Hct Hmt).
    + unfold html_of, extractBodyParts. simpl. by rewrite Hct, Hmt.
  - unfold html_of, extractBodyParts.
    rewrite (extract_leaf 0 h b parts mt params Hct Hmt).
    by destruct (String.eqb mt "text/html").
Qed.

Lemma text_of_cases (h : Header) (b : io.Reader) (parts : option (list Entity)) :
  text_of (mkEntity h b parts) =
  match ContentType h with
  | (_, _, Some _) => fst (io.ReadAll b)
  | (mt, _, None) =>
      if strings.HasPrefix mt "multipart/" then
        match parts with
        | None => ""
        | Some ps => first_nonempty (map text_of (List.filter by_default_rule ps))
        end
      else if String.eqb mt "text/html" then "" else read_or_empty b
  end.
Proof.
  destruct (ContentType h) as [[mt params] [err|]] eqn:Hct.
  { unfold text_of, extractBodyParts. simpl. by rewrite Hct. }
  destruct (strings.HasPrefix mt "multipart/") eqn:Hmt.
  - destruct parts as [ps|].
    + unfold text_of, extractBodyParts.
      rewrite (extract_multipart 0 h b ps mt params Hct Hmt), finish_vars.
      pose proof (walk_parts_vars 0 ps walk_start) as Hv.
      unfold vars in Hv. injection Hv as Ht _ _. by rewrite Ht.
    + unfold text_of, extractBodyParts. simpl. by rewrite Hct, Hmt.
  - unfold text_of, extractBodyParts.
    rewrite (extract_leaf 0 h b parts mt params Hct Hmt).
    by destruct (String.eqb mt "text/html").
Qed.

Lemma walked_part_found (f : Entity -> string) (ps : list Entity) (s : string) :
  In s (map f (List.filter by_default_rule ps)) ->
  exists p, In p ps /\ by_default_rule p = true /\ f p = s.
Proof.
  intros (p & <- & [Hin Hp]%filter_In)%in_map_iff. by exists p.
Qed.

Lemma walked_part_listed (f : Entity -> string) (ps : list Entity) (p : Entity) :
  In p ps -> by_default_rule p = true ->
  In (f p) (map f (List.filter by_default_rule ps)).
Proof. intros Hin Hp. apply in_map, filter_In. by split. Qed.

End Provenance.

(** X7: the html that [extractBodyParts] returns is not empty exactly when
    the entity is a text/html part whose body reads to something, or a
    multipart entity that holds such a part among the parts it walks into,
    at any depth.  Attachments, inline images, parts whose Content-Type
    does not parse and bodies that fail to read give no html, and the
    rewriting of references never empties it. *)
Theorem html_provenance `{MapRange} (e : Entity) :
  html_of e <> "" <-> has_html_part e.
Proof.
  split.
  - induction e as [h b|h b ps IH] using Entity_parts_ind;
      rewrite html_of_cases;
      destruct (ContentType h) as [[mt params] [err|]] eqn:Hct; try done;
      destruct (strings.HasPrefix mt "multipart/") eqn:Hmt; try done.
    + destruct (String.eqb mt "text/html") eqn:Hh; [|done].
      apply String.eqb_eq in Hh as ->. intros Hb. by eapply html_here.
    + intros Hhtml.
      assert (last_nonempty (map html_of (List.filter by_default_rule ps)) <> "")
        as Hacc.
      { intros E. rewrite E in Hhtml. by cbn in Hhtml. }
      apply last_nonempty_nonempty in Hacc as (s & Hin & Hs).
      apply walked_part_found in Hin as (p & Hin & Hp & <-).
      eapply html_below; [done..|].
      rewrite Forall_forall in IH. apply IH; [by apply list_elem_of_In|done].
    + destruct (String.eqb mt "text/html") eqn:Hh; [|done].
      apply String.eqb_eq in Hh as ->. intros Hb. by eapply html_here.
  - induction 1 as [h b parts params Hct Hb|h b ps mt params p Hct Hmt Hin Hp _ IH];
      rewrite html_of_cases, Hct.
    + done.
    + rewrite Hmt.
      assert (last_nonempty (map html_of (List.filter by_default_rule ps)) <> "")
        as Hacc.
      { apply last_nonempty_nonempty. exists (html_of p).
        split; [by apply walked_part_listed|done]. }
      destruct (_ && _); [|done].
      apply rewrite_cids_nonempty; [apply images_nonempty|done].
Qed.

(** X8: the text that [extractBodyParts] returns is not empty exactly when
    the entity is a part whose Content-Type does not parse and whose body
    gives bytes (also when the read ends in an error), a part of a media
    type other than multipart/... and text/html whose body reads to
    something, or a multipart entity that holds such a part among the
    parts it walks into.  A text/html part never gives text here. *)
Theorem text_provenance `{MapRange} (e : Entity) :
  text_of e <> "" <-> has_text_part e.
Proof.
  split.
  - induction e as [h b|h b ps IH] using Entity_parts_ind;
      rewrite text_of_cases;
      destruct (ContentType h) as [[mt params] [err|]] eqn:Hct;
      try (intros Hb; by eapply text_unparsed);
      destruct (strings.HasPrefix mt "multipart/") eqn:Hmt; try done.
    + destruct (String.eqb mt "text/html") eqn:Hh; [done|].
      apply String.eqb_neq in Hh. intros Hb. by eapply text_here.
    + intros (s & Hin & Hs)%first_nonempty_nonempty.
      apply walked_part_found in Hin as (p & Hin & Hp & <-).
      eapply text_below; [done..|].
      rewrite Forall_forall in IH. apply IH; [by apply list_elem_of_In|done].
    + destruct (String.eqb mt "text/html") eqn:Hh; [done|].
      apply String.eqb_neq in Hh. intros Hb. by eapply text_here.
  - induction 1 as [h b parts mt params err Hct Hb
                   |h b parts mt params Hct Hmt Hh Hb
                   |h b ps mt params p Hct Hmt Hin Hp _ IH];
      rewrite text_of_cases, Hct.
    + done.
    + rewrite Hmt. apply String.eqb_neq in Hh. by rewrite Hh.
    + rewrite Hmt. apply first_nonempty_nonempty. exists (text_of p).
      split; [by apply walked_part_listed|done].
Qed.

(** ** Images that are not referenced, images that share a Content-Id *)

Lemma ReplaceAll_absent (s old new : string) :
  old <> "" -> strings.Contains s old = false -> strings.ReplaceAll s old new = s.
Proof.
  intros Hold. induction s as [|c s IH]; intros Hc; [by apply ReplaceAll_nil|].
  rewrite Contains_cons in Hc. apply orb_false_iff in Hc as [Hp Hc].
  rewrite ReplaceAll_skip by done. by rewrite IH.
Qed.

Lemma rewrite_cids_absent (entries : list (string * string)) (html : string) :
  Forall (fun e => strings.Contains html ("cid:" +:+ e.1) = false) entries ->
  rewrite_cids entries html = html.
Proof.
  induction 1 as [|[id D] entries HD _ IH]; [done|].
  cbn [rewrite_cids fold_left].
  rewrite ReplaceAll_absent; [exact IH|apply cid_nonempty|exact HD].
Qed.

(** X9: images that the html does not refer to leave it as it is: when no
    cid:<content-id> of the level's image map occurs in the html
    accumulated from the parts, the multipart entity returns that html
    unchanged, whatever the number of images and the order the map is
    ranged over. *)
Theorem unreferenced_images_keep_html `{MapRange} (h : Header) (b : io.Reader)
    (ps : list Entity) (mt : string) (params : list (string * string)) :
  ContentType h = (mt, params, None) ->
  strings.HasPrefix mt "multipart/" = true ->
  forallb
    (fun e =>
       negb (strings.Contains
               (last_nonempty (map html_of (List.filter by_default_rule ps)))
               ("cid:" +:+ e.1)))
    (map_to_list (collect_images ps ∅)) = true ->
  html_of (mkEntity h b (Some ps)) =
  last_nonempty (map html_of (List.filter by_default_rule ps)).
Proof.
  intros Hct Hmt Hno. rewrite html_of_cases, Hct, Hmt.
  destruct (_ && _); [|done]. apply rewrite_cids_absent.
  apply Forall_forall. intros e He. rewrite range_of_perm in He.
  rewrite forallb_forall in Hno. apply negb_true_iff, Hno.
  by apply list_elem_of_In.
Qed.

Lemma collect_images_app (ps1 ps2 : list Entity) (m : gmap string string) :
  collect_images (ps1 ++ ps2) m = collect_images ps2 (collect_images ps1 m).
Proof. apply fold_left_app. Qed.

Lemma collect_images_other (ps : list Entity) (m : gmap string string) (k : string) :
  Forall
    (fun q =>
       is_inline_image q = true -> snd (io.ReadAll (Body q)) = None ->
       image_key q <> k) ps ->
  collect_images ps m !! k = m !! k.
Proof.
  intros Hps. revert m. induction Hps as [|q ps Hq _ IH]; intros m; [done|].
  unfold collect_images. cbn [fold_left]. fold (collect_images ps).
  rewrite IH. destruct (is_inline_image q) eqn:Hi; [|done].
  unfold store_image. destruct (ContentType (Header_of q)) as [[qmt qparams] qerr].
  destruct (io.ReadAll (Body q)) as [body [e|]] eqn:Hb; [done|].
  apply lookup_insert_ne. by apply Hq.
Qed.

(** X10: when several inline images of one level share a Content-Id, the
    last one whose body could be read is the one the level's map holds:
    an inline image part with a readable body is found under its key with
    its own data-URI after the loop, whatever came before it, as long as
    no later inline image with a readable body has the same key. *)
Theorem later_image_wins `{MapRange} (d : nat) (ps1 ps2 : list Entity)
    (p : Entity) (w : Walk) (mt : string) (params : list (string * string))
    (err : option error) (body : string) :
  is_inline_image p = true ->
  ContentType (Header_of p) = (mt, params, err) ->
  io.ReadAll (Body p) = (body, None) ->
  Forall
    (fun q =>
       is_inline_image q = true -> snd (io.ReadAll (Body q)) = None ->
       image_key q <> image_key p) ps2 ->
  w_images (walk_parts d (ps1 ++ p :: ps2) w) !! image_key p =
  Some (dataURI mt body).
Proof.
  intros Hi Hct Hb Hps2.
  pose proof (walk_parts_vars d (ps1 ++ p :: ps2) w) as Hv.
  unfold vars in Hv. injection Hv as _ _ ->.
  rewrite collect_images_app. unfold collect_images at 1. cbn [fold_left].
  fold (collect_images ps2). rewrite collect_images_other by done.
  rewrite Hi. unfold store_image. rewrite Hct, Hb. apply lookup_insert_eq.
Qed.

(** ** The key of an inline image *)

Lemma TrimLeft_head (s cs : string) :
  match strings.TrimLeft s cs with
  | EmptyString => str_forall (strings.in_cutset cs) s = true
  | String c _ =>
      strings.in_cutset cs c = false
      /\ str_forall (strings.in_cutset cs) s = false
  end.
Proof.
  induction s as [|c s IH]; [done|]. cbn [strings.TrimLeft str_forall].
  destruct (strings.in_cutset cs c) eqn:Hc; [exact IH|done].
Qed.

Lemma TrimLeft_app (s t cs : string) :
  strings.TrimLeft (s +:+ t) cs =
  if str_forall (strings.in_cutset cs) s then strings.TrimLeft t cs
  else strings.TrimLeft s cs +:+ t.
Proof.
  induction s as [|c s IH]; [done|]. rewrite sapp_cons.
  cbn [strings.TrimLeft str_forall].
  destruct (strings.in_cutset cs c); [exact IH|done].
Qed.

Lemma TrimRight_empty (s cs : string) :
  strings.TrimRight s cs = "" <-> str_forall (strings.in_cutset cs) s = true.
Proof.
  induction s as [|c s IH]; [done|]. cbn [strings.TrimRight str_forall]. cbv zeta.
  destruct (strings.TrimRight s cs) eqn:E; cbn [is_empty andb].
  - destruct (strings.in_cutset cs c); cbn [andb]; [|done].
    split; [intros _; by apply IH|done].
  - split; [done|]. intros [_ Hs]%andb_true_iff. by apply IH in Hs.
Qed.

Lemma TrimRight_snoc (s cs : string) (c : ascii) :
  strings.in_cutset cs c = true ->
  strings.TrimRight (s +:+ String c "") cs = strings.TrimRight s cs.
Proof.
  intros Hc. induction s as [|d s IH].
  - rewrite sapp_nil_l. cbn. by rewrite Hc.
  - rewrite sapp_cons. cbn [strings.TrimRight]. by rewrite IH.
Qed.

Lemma TrimRight_idem (s cs : string) :
  strings.TrimRight (strings.TrimRight s cs) cs = strings.TrimRight s cs.
Proof.
  induction s as [|c s IH]; [done|]. cbn [strings.TrimRight]. cbv zeta.
  destruct (is_empty (strings.TrimRight s cs) && strings.in_cutset cs c) eqn:E;
    [done|].
  cbn [strings.TrimRight]. cbv zeta. by rewrite IH, E.
Qed.

Lemma Trim_empty (s cs : string) :
  strings.Trim s cs = "" <-> str_forall (strings.in_cutset cs) s = true.
Proof.
  unfold strings.Trim. rewrite TrimRight_empty.
  pose proof (TrimLeft_head s cs) as Hh.
  destruct (strings.TrimLeft s cs) as [|c r]; [done|].
  destruct Hh as [Hc ->]. cbn [str_forall]. by rewrite Hc.
Qed.

Lemma Trim_idem (s cs : string) :
  strings.Trim (strings.Trim s cs) cs = strings.Trim s cs.
Proof.
  unfold strings.Trim. pose proof (TrimLeft_head s cs) as Hh.
  destruct (strings.TrimLeft s cs) as [|c r]; [done|]. destruct Hh as [Hc _].
  cbn [strings.TrimRight]. cbv zeta. rewrite Hc, andb_false_r.
  cbn [strings.TrimLeft]. rewrite Hc.
  cbn [strings.TrimRight]. cbv zeta. by rewrite TrimRight_idem, Hc, andb_false_r.
Qed.

(** X11: the key an inline image is stored under is its Content-Id without
    the angle brackets at its ends: <x> and x give the same key, the key
    has no bracket left at either end, and it is empty exactly when the
    Content-Id is made of brackets only. *)
Theorem image_key_normalised (p : Entity) :
  (image_key p = "" <->
   str_forall (strings.in_cutset "<>") (Get (Header_of p) "Content-Id") = true)
  /\ strings.Trim (image_key p) "<>" = image_key p
  /\ (forall x,
        Get (Header_of p) "Content-Id" = "<" +:+ x +:+ ">" ->
        image_key p = strings.Trim x "<>").
Proof.
  unfold image_key. split; [apply Trim_empty|]. split; [apply Trim_idem|].
  intros x ->. unfold strings.Trim. rewrite sapp_cons, sapp_nil_l.
  cbn [strings.TrimLeft strings.in_cutset Ascii.eqb orb]. cbn.
  rewrite TrimLeft_app.
  pose proof (TrimLeft_head x "<>") as Hh.
  destruct (str_forall (strings.in_cutset "<>") x) eqn:Hx.
  - destruct (strings.TrimLeft x "<>"); [done|]. by destruct Hh.
  - by rewrite TrimRight_snoc.
Qed.

(** ** What [parseEmail] returns is trimmed *)

Lemma TrimLeftSpace_fixed (s : string) :
  starts_with_space s = false -> strings.TrimLeftSpace s = s.
Proof.
  destruct s as [|a s1]; [done|]. cbn [starts_with_space].
  intros [H1 H2]%orb_false_iff. cbn [strings.TrimLeftSpace]. rewrite H1.
  destruct s1 as [|b s2]; [done|]. apply orb_false_iff in H2 as [H2 H3].
  rewrite H2. destruct s2 as [|c s3]; [done|]. by rewrite H3.
Qed.

Lemma TrimLeftSpace_no_space (s : string) :
  starts_with_space (strings.TrimLeftSpace s) = false.
Proof.
  remember (len s) as n eqn:Hn. assert (len s <= n) as Hle by lia. clear Hn.
  revert s Hle. induction n as [|n IH]; intros s Hle.
  { destruct s; [done|simpl in Hle; lia]. }
  destruct s as [|a s1]; [done|]. simpl in Hle. cbn [strings.TrimLeftSpace].
  destruct (strings.is_space1 a) eqn:H1; [apply IH; lia|].
  destruct s1 as [|b s2]. { cbn [starts_with_space]. by rewrite H1. }
  simpl in Hle. destruct (strings.is_space2 a b) eqn:H2; [apply IH; lia|].
  destruct s2 as [|c s3]. { cbn [starts_with_space]. by rewrite H1, H2. }
  simpl in Hle. destruct (strings.is_space3 a b c) eqn:H3; [apply IH; lia|].
  cbn [starts_with_space]. by rewrite H1, H2, H3.
Qed.

Lemma starts_with_space_app (u v : string) :
  starts_with_space u = true -> starts_with_space (u +:+ v) = true.
Proof.
  destruct u as [|a u1]; [done|]. rewrite sapp_cons. cbn [starts_with_space].
  destruct (strings.is_space1 a); [done|]. cbn [orb].
  destruct u1 as [|b u2]; [done|]. rewrite sapp_cons.
  destruct (strings.is_space2 a b); [done|]. cbn [orb].
  destruct u2 as [|c u3]; [done|]. by rewrite sapp_cons.
Qed.

Lemma TrimRightSpace_idem (s : string) :
  strings.TrimRightSpace (strings.TrimRightSpace s) = strings.TrimRightSpace s.
Proof.
  induction s as [|a s IH]; [done|]. cbn [strings.TrimRightSpace]. cbv zeta.
  destruct (strings.is_space_rune (String a (strings.TrimRightSpace s))) eqn:Hr;
    [done|].
  cbn [strings.TrimRightSpace]. cbv zeta. by rewrite IH, Hr.
Qed.

Lemma TrimSpace_idem (s : string) :
  strings.TrimSpace (strings.TrimSpace s) = strings.TrimSpace s.
Proof.
  unfold strings.TrimSpace.
  rewrite (TrimLeftSpace_fixed (strings.TrimRightSpace (strings.TrimLeftSpace s))).
  - apply TrimRightSpace_idem.
  - destruct (starts_with_space (strings.TrimRightSpace (strings.TrimLeftSpace s)))
      eqn:E; [|done].
    destruct (TrimRightSpace_prefix (strings.TrimLeftSpace s)) as [v Hv].
    apply (starts_with_space_app _ v) in E. rewrite <- Hv in E.
    by rewrite TrimLeftSpace_no_space in E.
Qed.

(** X12: of a message that parses, [parseEmail] returns a text and an html
    without white space at either end: [strings.TrimSpace] leaves both as
    they are, and neither begins with a white-space character. *)
Theorem parseEmail_trimmed `{Parser} `{MapRange} (data : string) (entity : Entity) :
  message_Read data = Ok entity ->
  strings.TrimSpace (snd (fst (parseEmail data))) = snd (fst (parseEmail data))
  /\ strings.TrimSpace (snd (parseEmail data)) = snd (parseEmail data)
  /\ starts_with_space (snd (fst (parseEmail data))) = false
  /\ starts_with_space (snd (parseEmail data)) = false.
Proof.
  intros Hr. unfold parseEmail. rewrite Hr.
  destruct (extractBodyParts entity) as [text html]. cbn [fst snd].
  assert (forall s, starts_with_space (strings.TrimSpace s) = false) as Hno.
  { intros s. destruct (starts_with_space (strings.TrimSpace s)) eqn:E; [|done].
    unfold strings.TrimSpace in E.
    destruct (TrimRightSpace_prefix (strings.TrimLeftSpace s)) as [v Hv].
    apply (starts_with_space_app _ v) in E. rewrite <- Hv in E.
    by rewrite TrimLeftSpace_no_space in E. }
  by rewrite !TrimSpace_idem, !Hno.
Qed.

(** ** [StartSMTPServer] and [main] *)

Section Start.
Context `{Network}.

Lemma StartSMTPServer_cases (port url jwt : string) (evs : list NetEvent) :
  port <> "" -> url <> "" -> jwt <> "" ->
  StartSMTPServer port url jwt evs =
  match net_Listen evs (":" +:+ port) with
  | Some err =>
      (Some (wrapError ("port " +:+ port +:+ " is already in use or cannot bind")
               err), evs)
  | None =>
      match net_Listen (evs ++ [Listened (":" +:+ port); Closed (":" +:+ port)])
              (":" +:+ port) with
      | Some err =>
          (Some (wrapError ("failed to listen on port " +:+ port) err),
           evs ++ [Listened (":" +:+ port); Closed (":" +:+ port)])
      | None =>
          (None,
           evs ++ [Listened (":" +:+ port); Closed (":" +:+ port);
                   Listened (":" +:+ port);
                   Serving
                     (mkServer (mkSMTPBackend jwt url) (":" +:+ port)
                        "smtp.yundera.local" true MaxEmailSize 50 30 30)])
      end
  end.
Proof.
  intros Hp Hu Hj. unfold StartSMTPServer, NewSMTPBackend.
  destruct port; [done|]. destruct url; [done|]. destruct jwt; [done|].
  cbn [is_empty Addr]. destruct (net_Listen evs _); [done|].
  rewrite <- !app_assoc. cbn [app].
  destruct (net_Listen _ _); [done|]. done.
Qed.

Lemma StartSMTPServer_invalid (port url jwt : string) (evs : list NetEvent) :
  port = "" \/ url = "" \/ jwt = "" ->
  snd (StartSMTPServer port url jwt evs) = evs
  /\ exists msg, fst (StartSMTPServer port url jwt evs) = Some (errorString msg).
Proof.
  unfold StartSMTPServer. destruct port; [intros _; split; by eauto|].
  destruct url; [intros _; split; by eauto|].
  destruct jwt; [intros _; split; by eauto|].
  by intros [?|[?|?]].
Qed.

Lemma open_listeners_test (a : string) :
  open_listeners [Listened a; Closed a] [] = [].
Proof. cbn. by rewrite String.eqb_refl. Qed.

Lemma open_listeners_started (a : string) (srv : Server) :
  open_listeners [Listened a; Closed a; Listened a; Serving srv] [] = [a].
Proof. cbn. by rewrite String.eqb_refl. Qed.

End Start.

(** X13: [StartSMTPServer] returns nil exactly when its three arguments are
    not empty and both listens on :<port> succeed.  It then has opened,
    closed and opened again a listener on :<port> and started one server
    on it, whose backend holds the token and the URL given and whose
    message limit is [MaxEmailSize]; one listener is open.  When it
    returns an error no server has been started and no listener is left
    open, and with an empty argument the network has not been touched. *)
Theorem StartSMTPServer_outcomes `{Network} (port url jwt : string)
    (evs : list NetEvent) :
  (fst (StartSMTPServer port url jwt evs) = None <->
   port <> "" /\ url <> "" /\ jwt <> ""
   /\ net_Listen evs (":" +:+ port) = None
   /\ net_Listen (evs ++ [Listened (":" +:+ port); Closed (":" +:+ port)])
        (":" +:+ port) = None)
  /\ exists extra,
       snd (StartSMTPServer port url jwt evs) = evs ++ extra
       /\ match fst (StartSMTPServer port url jwt evs) with
          | None =>
              extra =
              [Listened (":" +:+ port); Closed (":" +:+ port);
               Listened (":" +:+ port);
               Serving
                 (mkServer (mkSMTPBackend jwt url) (":" +:+ port)
                    "smtp.yundera.local" true MaxEmailSize 50 30 30)]
              /\ open_listeners extra [] = [":" +:+ port]
          | Some err =>
              open_listeners extra [] = []
              /\ (forall srv, ~ In (Serving srv) extra)
              /\ (port = "" \/ url = "" \/ jwt = "" ->
                  extra = [] /\ exists msg, err = errorString msg)
          end.
Proof.
  destruct (decide (port = "")) as [Hp|Hp];
    [|destruct (decide (url = "")) as [Hu|Hu];
      [|destruct (decide (jwt = "")) as [Hj|Hj]]].
  1-3: destruct (StartSMTPServer_invalid port url jwt evs) as [Hs [msg Hf]];
    [by auto|]; rewrite Hs, Hf; split;
    [split; [done|]; by intros (? & ? & ? & _)|];
    exists []; rewrite app_nil_r; split; [done|];
    split; [done|]; split; [by intros srv []|]; intros _; by eauto.
  rewrite StartSMTPServer_cases by done.
  destruct (net_Listen evs _) as [e1|] eqn:H1.
  { cbn [fst snd]. split; [split; [done|]; by intros (_ & _ & _ & ? & _)|].
    exists []. rewrite app_nil_r. split; [done|]. split; [done|].
    split; [by intros srv []|]. by intros [?|[?|?]]. }
  destruct (net_Listen (evs ++ _) _) as [e2|] eqn:H2; cbn [fst snd].
  - split; [split; [done|]; by intros (_ & _ & _ & _ & ?)|].
    eexists. split; [done|]. split; [apply open_listeners_test|].
    split; [|by intros [?|[?|?]]].
    intros srv [?|[?|[]]]; done.
  - split; [done|]. eexists. split; [done|]. split; [done|].
    apply open_listeners_started.
Qed.

(** X14: [main] ends in one of six ways.  When [flag.Parse] rejects the
    command line it exits with code 2, and with code 0 when the command
    line asks for help; with the version flag it exits with code 0; in
    all three nothing is touched, whatever the environment.  Without
    USER_JWT it is fatal before any listener is opened.  Otherwise it
    starts the server on SMTP_PORT, or 587, for ORCHESTRATOR_URL, or
    https://nasselle.com/service/pcs, with USER_JWT as token; it is then
    fatal only for a listen that failed, never for a missing argument of
    [StartSMTPServer], and else runs until the signal.  A command line
    without arguments, or whose first argument is no flag, sets no flag
    and stops nothing. *)
Theorem main_outcomes `{Network} (args : list string) (getenv : string -> string)
    (evs : list NetEvent) :
  let port :=
    if is_empty (getenv "SMTP_PORT") then "587" else getenv "SMTP_PORT" in
  let url :=
    if is_empty (getenv "ORCHESTRATOR_URL")
    then "https://nasselle.com/service/pcs" else getenv "ORCHESTRATOR_URL" in
  match main args getenv evs with
  | (Exited code, evs') =>
      evs' = evs
      /\ ((code = 2%Z /\ parse_flags args = flag.Failed)
          \/ (code = 0%Z
              /\ (parse_flags args = flag.ErrHelp
                  \/ parse_flags args = flag.Parsed true)))
  | (Fatal msg None, evs') =>
      parse_flags args = flag.Parsed false /\ getenv "USER_JWT" = "" /\ evs' = evs
      /\ msg = "❌ ERROR: USER_JWT environment variable is required"
  | (Fatal msg (Some err), evs') =>
      parse_flags args = flag.Parsed false /\ getenv "USER_JWT" <> ""
      /\ msg = "❌ Failed to start SMTP server"
      /\ exists cause,
           (err = wrapError
                    ("port " +:+ port +:+ " is already in use or cannot bind")
                    cause
            /\ evs' = evs)
           \/ (err = wrapError ("failed to listen on port " +:+ port) cause
               /\ evs' =
                  evs ++ [Listened (":" +:+ port); Closed (":" +:+ port)])
  | (ShutDown, evs') =>
      parse_flags args = flag.Parsed false /\ getenv "USER_JWT" <> ""
      /\ evs' =
         evs ++ [Listened (":" +:+ port); Closed (":" +:+ port);
                 Listened (":" +:+ port);
                 Serving
                   (mkServer (mkSMTPBackend (getenv "USER_JWT") url)
                      (":" +:+ port) "smtp.yundera.local" true MaxEmailSize
                      50 30 30)]
  end
  /\ parse_flags [] = flag.Parsed false
  /\ (forall s rest,
        strings.HasPrefix s "-" = false -> parse_flags (s :: rest) = flag.Parsed false)
  /\ (forall rest, parse_flags ("-" :: rest) = flag.Parsed false)
  /\ (forall rest, parse_flags ("--" :: rest) = flag.Parsed false).
Proof.
  cbv zeta. split.
  - unfold main. destruct (parse_flags args) as [[|]| |]; [by eauto 6| |by eauto 6..].
    destruct (getenv "USER_JWT") as [|j jwt] eqn:Hj; [done|]. cbn [is_empty].
    rewrite StartSMTPServer_cases;
      [|by destruct (getenv "SMTP_PORT")|by destruct (getenv "ORCHESTRATOR_URL")|done].
    destruct (net_Listen evs _) as [e1|]; [by eauto 10|].
    destruct (net_Listen (evs ++ _) _) as [e2|]; [by eauto 10|done].
  - split; [done|]. split; [|done].
    intros [|c [|c1 s]] rest Hs; try done.
    unfold parse_flags. cbn [flag.Parse].
    rewrite HasPrefix_cons in Hs. apply andb_false_iff in Hs as [Hs|Hs].
    + by rewrite Hs.
    + by rewrite HasPrefix_nil in Hs.
Qed.

(** What [flag.Parse] makes of some command lines. *)
Example command_lines :
  parse_flags ["-version"] = flag.Parsed true
  /\ parse_flags ["--v"] = flag.Parsed true
  /\ parse_flags ["-v"; "false"] = flag.Parsed true
  /\ parse_flags ["-version"; "-v=false"] = flag.Parsed false
  /\ parse_flags ["-v=0"; "--version=T"] = flag.Parsed true
  /\ parse_flags ["serve"; "-v"] = flag.Parsed false
  /\ parse_flags ["--"; "-v"] = flag.Parsed false
  /\ parse_flags ["-h"] = flag.ErrHelp
  /\ parse_flags ["--help=1"] = flag.ErrHelp
  /\ parse_flags ["-v"; "-h"] = flag.ErrHelp
  /\ parse_flags ["-port"] = flag.Failed
  /\ parse_flags ["-v=yes"] = flag.Failed
  /\ parse_flags ["-v="] = flag.Failed
  /\ parse_flags ["---v"] = flag.Failed
  /\ parse_flags ["-=v"] = flag.Failed.
Proof. repeat split. Qed.

(** X15: when [main] has started the server, every session that the server
    opens on its backend, whatever callbacks the transport runs on it,
    sends its requests to ORCHESTRATOR_URL, or the default URL, followed
    by /email/send, with USER_JWT as bearer token. *)
Theorem main_requests `{Unicode} `{Parser} `{MapRange} `{HTTPClient} `{Network}
    (args : list string) (getenv : string -> string) (evs evs' : list NetEvent) :
  main args getenv evs = (ShutDown, evs') ->
  exists srv,
    last evs' = Some (Serving srv)
    /\ forall cbs,
         Forall
           (fun req =>
              Method req = "POST"
              /\ URL req =
                 (if is_empty (getenv "ORCHESTRATOR_URL")
                  then "https://nasselle.com/service/pcs"
                  else getenv "ORCHESTRATOR_URL") +:+ "/email/send"
              /\ HeaderAuthorization req = "Bearer " +:+ getenv "USER_JWT")
           (sent (run_callbacks cbs (mkConn (NewSession (Backend srv)) []))).
Proof.
  unfold main. destruct (parse_flags args) as [[|]| |]; try done.
  destruct (getenv "USER_JWT") as [|j jwt] eqn:Hj; [done|]. cbn [is_empty].
  rewrite StartSMTPServer_cases;
    [|by destruct (getenv "SMTP_PORT")|by destruct (getenv "ORCHESTRATOR_URL")|done].
  destruct (net_Listen evs _) as [e1|]; [done|].
  destruct (net_Listen (evs ++ _) _) as [e2|]; [done|].
  intros [= <-]. eexists. split.
  { by rewrite last_app. }
  intros cbs. cbn [Backend].
  destruct (run_callbacks_kept _ cbs _ (NewSession_kept (mkSMTPBackend (String j jwt)
    (if is_empty (getenv "ORCHESTRATOR_URL")
     then "https://nasselle.com/service/pcs"
     else getenv "ORCHESTRATOR_URL")))) as (_ & _ & Hsent).
  eapply Forall_impl; [exact Hsent|].
  intros req [(Hm & Hu & _ & Ha) _]. done.
Qed.

(** ** The further properties on the samples *)

Section MoreSamples.

#[local] Existing Instance range_listed.
#[local] Existing Instance unicode_unchanged.
#[local] Existing Instance parser_refuses.
#[local] Existing Instance api_accepts.
#[local] Existing Instance network_free.

Lemma authenticated_label_kept_witness :
  label_for
    (session
       (run_callbacks
          [OnMail "noreply@example.com"; OnRcpt "user@example.com";
           OnData (io.mkReader "raw message" None); OnReset]
          (snd (Auth "" "Vaultwarden" "secret"
                  (mkConn (NewSession (mkSMTPBackend "token" "https://api.example"))
                     [])))))
  = "vaultwarden".
Proof.
  exact (proj1 (proj2 (proj2
    (authenticated_label_kept "" "Vaultwarden" "secret"
       [OnMail "noreply@example.com"; OnRcpt "user@example.com";
        OnData (io.mkReader "raw message" None); OnReset]
       (mkConn (NewSession (mkSMTPBackend "token" "https://api.example")) [])
       eq_refl)))).
Defined.

Lemma label_from_sender_witness :
  label_for
    (mkSMTPSession (mkSMTPBackend "token" "https://api.example") ""
       "Vault.Warden@example.com" [] "")
  = "vaultwarden".
Proof.
  exact (proj2 (proj2
    (label_from_sender
       (mkSMTPSession (mkSMTPBackend "token" "https://api.example") ""
          "Vault.Warden@example.com" [] "")
       eq_refl))
    "Vault.Warden" "example.com" eq_refl eq_refl).
Defined.

Lemma recipients_outlive_Data_witness :
  exists rcpt rest req1 req2,
    to (session one_recipient) = rcpt :: rest
    /\ to (session
             (mkConn
                (mkSMTPSession (mkSMTPBackend "token" "https://api.example") "" ""
                   ["user@example.com"; "second@example.com"] "")
                [raw_request; raw_request]))
       = rcpt :: rest ++ ["second@example.com"]
    /\ [raw_request; raw_request] = sent one_recipient ++ [req1; req2]
    /\ To (Payload req1) = rcpt
    /\ To (Payload req2) = rcpt.
Proof.
  refine (recipients_outlive_Data
            (io.mkReader "raw message" None) (io.mkReader "raw message" None)
            one_recipient (mkConn (session one_recipient) [raw_request])
            (mkConn
               (mkSMTPSession (mkSMTPBackend "token" "https://api.example") "" ""
                  ["user@example.com"; "second@example.com"] "")
               [raw_request; raw_request])
            "second@example.com" _ _).
  - rewrite (Data_delivers _ _ "raw message" "user@example.com" []);
      [reflexivity|by rewrite LimitReader_small|done].
  - rewrite (Data_delivers _ _ "raw message" "user@example.com" ["second@example.com"]);
      [reflexivity|by rewrite LimitReader_small|done].
Defined.

Lemma unreferenced_images_keep_html_witness :
  html_of (multipart "multipart/related" [html_plain; inline_png]) = "<p>Hi</p>".
Proof.
  refine (unreferenced_images_keep_html
            (typed_header "multipart/related" [("boundary", "b")] [])
            (io.mkReader "" None) [html_plain; inline_png]
            "multipart/related" [("boundary", "b")] eq_refl eq_refl _).
  vm_compute; reflexivity.
Defined.

Lemma later_image_wins_witness :
  w_images (walk_parts 0 ([inline_png] ++ inline_gif :: [html_with_cid]) walk_start)
    !! "img1"
  = Some "data:image/gif;base64,eHl6".
Proof.
  refine (later_image_wins 0 [inline_png] [html_with_cid] inline_gif walk_start
            "image/gif" [] None "xyz" eq_refl eq_refl eq_refl _).
  constructor; [|constructor]. intros Hi. vm_compute in Hi. discriminate.
Defined.

Lemma parseEmail_trimmed_witness :
  strings.TrimSpace
    (snd (fst (@parseEmail (parser_reads html_only) range_listed "raw")))
  = snd (fst (@parseEmail (parser_reads html_only) range_listed "raw"))
  /\ strings.TrimSpace (snd (@parseEmail (parser_reads html_only) range_listed "raw"))
     = snd (@parseEmail (parser_reads html_only) range_listed "raw")
  /\ starts_with_space
       (snd (fst (@parseEmail (parser_reads html_only) range_listed "raw"))) = false
  /\ starts_with_space
       (snd (@parseEmail (parser_reads html_only) range_listed "raw")) = false.
Proof.
  exact (@parseEmail_trimmed (parser_reads html_only) range_listed "raw" html_only
           eq_refl).
Defined.

Lemma main_requests_witness :
  exists srv,
    last started_by_default = Some (Serving srv)
    /\ forall cbs,
         Forall
           (fun req =>
              Method req = "POST"
              /\ URL req = "https://nasselle.com/service/pcs/email/send"
              /\ HeaderAuthorization req = "Bearer token")
           (sent (run_callbacks cbs (mkConn (NewSession (Backend srv)) []))).
Proof.
  exact (main_requests ["-v=false"] env_token_only [] started_by_default eq_refl).
Defined.

End MoreSamples.
